(** * Neptune parameter group resource: a shallow embedding

    Source: [aws/resource_aws_neptune_parameter_group.go].

    The resource reconciles the [parameter] set of a Neptune DB parameter
    group.  The development follows the Go file top to bottom:

    - the packages the file imports ([strings], [hash/crc32], [hashcode],
      [helper/schema], [helper/resource], the Neptune client) are modelled
      first, as far as the resource uses them;
    - then the four CRUD functions and the set hash function;
    - then the properties.

    Remote calls are explicit state passing over a [World]: the state of the
    remote service, a millisecond clock, and the log of the calls issued. *)

From Stdlib Require Import ZArith NArith String Ascii List Lia DecimalString.
From stdpp Require Import gmap strings sorting list.

Local Open Scope string_scope.
Local Open Scope Z_scope.
Local Open Scope list_scope.

(** ** Imported packages *)

(** [strings]: substring test and the ASCII range of [ToLower]. *)
Module strings.

(** [strings.Contains(s, substr)]. *)
Fixpoint Contains (s substr : string) : bool :=
  String.prefix substr s ||
  match s with
  | EmptyString => false
  | String _ s' => Contains s' substr
  end.

Definition lowerByte (c : ascii) : ascii :=
  let n := N_of_ascii c in
  if ((65 <=? n) && (n <=? 90))%N then ascii_of_N (n + 32) else c.

(** [strings.ToLower] on ASCII text: 'A'..'Z' are shifted, every other
    byte is kept.  (Go also maps non-ASCII letters; the resource is
    stated over an arbitrary [ToLower] below, this instance is used to
    run examples.) *)
Fixpoint ToLowerASCII (s : string) : string :=
  match s with
  | EmptyString => EmptyString
  | String c s' => String (lowerByte c) (ToLowerASCII s')
  end.

End strings.

(** [strconv.Itoa] on a non-negative hash code. *)
Module strconv.
Definition Itoa (z : Z) : string := NilZero.string_of_int (Z.to_int z).
End strconv.

(** [hash/crc32]: the IEEE checksum, bit by bit (reflected polynomial
    0xedb88320, initial value and final complement 0xffffffff). *)
Module crc32.

Definition IEEE : Z := 0xedb88320.

Definition shift1 (crc : Z) : Z :=
  if Z.testbit crc 0
  then Z.lxor (Z.shiftr crc 1) IEEE
  else Z.shiftr crc 1.

Definition updateByte (crc : Z) (b : ascii) : Z :=
  Nat.iter 8 shift1 (Z.lxor crc (Z.of_N (N_of_ascii b))).

Fixpoint update (crc : Z) (s : string) : Z :=
  match s with
  | EmptyString => crc
  | String b s' => update (updateByte crc b) s'
  end.

Definition ChecksumIEEE (s : string) : Z :=
  Z.lxor (update 0xffffffff s) 0xffffffff.

End crc32.

(** [helper/hashcode]. *)
Module hashcode.

(** [hashcode.String]: the checksum as an [int] (64 bits, so the
    conversion keeps the value), made non-negative. *)
Definition String (s : string) : Z :=
  let v := crc32.ChecksumIEEE s in
  if 0 <=? v then v
  else if 0 <=? - v then - v
  else 0.

End hashcode.

(** Error codes of the Neptune SDK used by the resource. *)
Module neptune.
Definition ErrCodeDBParameterGroupNotFoundFault : string :=
  "DBParameterGroupNotFound".
Definition ErrCodeInvalidDBParameterGroupStateFault : string :=
  "InvalidDBParameterGroupState".
End neptune.

(** ** Data *)

(** An element of the [parameter] set: the [map[string]interface{}] with
    the keys of the element schema (lines 55-77). *)
Record ParameterItem : Type := mkItem {
  item_name : string;
  item_value : string;
  item_apply_method : string
}.

#[global] Instance ParameterItem_eq_dec : EqDecision ParameterItem.
Proof. solve_decision. Defined.

(** [neptune.Parameter], restricted to the fields the resource fills
    (the Go name is a reserved word here). *)
Record neptune_Parameter : Type := mkParameter {
  ApplyMethod : string;
  ParameterName : string;
  ParameterValue : string
}.

#[global] Instance neptune_Parameter_eq_dec : EqDecision neptune_Parameter.
Proof. solve_decision. Defined.

(** ** [helper/schema]: the hash-keyed set

    A [schema.Set] is a Go map from the decimal string of an item's hash
    code to the item.  [F] is the set's hash function. *)
Section SchemaSet.

Variable F : ParameterItem -> Z.

(** [Set.hash]: a negative code is negated, then printed. *)
Definition Set_hash (item : ParameterItem) : string :=
  let code := F item in
  strconv.Itoa (if code <? 0 then - code else code).

(** [Set.add]: an item whose code is taken is dropped. *)
Definition Set_add (s : gmap string ParameterItem) (item : ParameterItem)
  : gmap string ParameterItem :=
  let code := Set_hash item in
  match s !! code with
  | Some _ => s
  | None => <[code := item]> s
  end.

(** [schema.NewSet(F, items)]. *)
Definition NewSet (items : list ParameterItem) : gmap string ParameterItem :=
  fold_left Set_add items ∅.

(** What [add] maintains: every item sits under its own key. *)
Definition Set_keyed (s : gmap string ParameterItem) : Prop :=
  ∀ k v, s !! k = Some v → Set_hash v = k.

End SchemaSet.

(** [Set.Difference]: the entries of [s] whose key is not a key of
    [other]. *)
Definition Set_Difference (s other : gmap string ParameterItem)
  : gmap string ParameterItem :=
  filter (λ kv, other !! kv.1 = None) s.

(** Go orders strings byte by byte. *)
Definition bytesLe (a b : string) : Prop := String.leb a b = true.

#[global] Instance bytesLe_dec : RelDecision bytesLe.
Proof. intros a b. unfold bytesLe. apply _. Defined.

(** [Set.listCode]: the keys, sorted as strings ([sort.Strings]). *)
Definition Set_listCode (s : gmap string ParameterItem) : list string :=
  merge_sort bytesLe (fst <$> map_to_list s).

(** [Set.List]: the items in the order of their sorted keys. *)
Definition Set_List (s : gmap string ParameterItem) : list ParameterItem :=
  omap (λ k, s !! k) (Set_listCode s).

(** [Set.Equal]: [reflect.DeepEqual] of the two maps. *)
Definition Set_Equal (s other : gmap string ParameterItem) : bool :=
  bool_decide (s = other).

(** ** Errors, remote calls and the world *)

(** [neptune.DBParameterGroup], as returned by the describe call. *)
Record DBParameterGroup : Type := mkGroup {
  DBParameterGroupName : string;
  DBParameterGroupFamily : string;
  Description : string
}.

(** Go [error] values the resource meets: an SDK [awserr.Error] with its
    code and message, any other error of the client, and the errors the
    resource builds with [fmt.Errorf]. *)
Inductive error : Type :=
  | AwsError (code message : string)
  | PlainError (text : string)
  | Errorf (format : string) (cause : error)
  | ErrorfGroups (format : string) (groups : list DBParameterGroup).

(** [neptune.CreateDBParameterGroupInput]. *)
Record CreateDBParameterGroupInput : Type := mkCreateInput {
  create_DBParameterGroupName : string;
  create_DBParameterGroupFamily : string;
  create_Description : string
}.

(** The remote calls of the file, with their inputs. *)
Inductive Call : Type :=
  | CallCreate (input : CreateDBParameterGroupInput)
  | CallDescribeGroups (groupName : string)
  | CallDescribeParameters (groupName source : string)
  | CallReset (groupName : string) (parameters : list neptune_Parameter)
  | CallModify (groupName : string) (parameters : list neptune_Parameter)
  | CallDelete (groupName : string).

(** One entry of the call log: the call and the error it came back with. *)
Record Event : Type := mkEvent {
  ev_call : Call;
  ev_err : option error
}.

(** The Neptune client ([conn]) over a remote state [W].  [latency w] is
    the time in milliseconds the call that led to [w] took.
    [DescribeDBParametersPages] hands back the pages it delivered to the
    callback and the error it ended with. *)
Record NeptuneAPI (W : Type) : Type := mkAPI {
  CreateDBParameterGroup :
    CreateDBParameterGroupInput → W → (string + error) * W;
  DescribeDBParameterGroups :
    string → W → (list DBParameterGroup + error) * W;
  DescribeDBParametersPages :
    string → string → W →
    (list (list neptune_Parameter) * option error) * W;
  ResetDBParameterGroup :
    string → list neptune_Parameter → W → option error * W;
  ModifyDBParameterGroup :
    string → list neptune_Parameter → W → option error * W;
  DeleteDBParameterGroup : string → W → option error * W;
  latency : W → N
}.

Arguments CreateDBParameterGroup {W}.
Arguments DescribeDBParameterGroups {W}.
Arguments DescribeDBParametersPages {W}.
Arguments ResetDBParameterGroup {W}.
Arguments ModifyDBParameterGroup {W}.
Arguments DeleteDBParameterGroup {W}.
Arguments latency {W}.

(** What the resource sees and does: the remote state, a clock in
    milliseconds, the log of remote calls in the order they were issued. *)
Record World (W : Type) : Type := mkWorld {
  remote : W;
  clock : N;
  events : list Event
}.

Arguments mkWorld {W}.
Arguments remote {W}.
Arguments clock {W}.
Arguments events {W}.

(** [resource.RetryError]: an error and whether it may be retried. *)
Inductive RetryError : Type :=
  | RetryableError (err : error)
  | NonRetryableError (err : error).

(** [time.Second] and [time.Minute], in milliseconds. *)
Definition time_Second : N := 1000.
Definition time_Minute : N := 60000.

(** ** [schema.ResourceData]

    The fields of [d] the resource reads and writes: the id, the three
    immutable attributes, the old and new value of [parameter] as
    [GetChange] returns them ([None] is Go's nil), and the partial-state
    bookkeeping. *)
Record ResourceData : Type := mkData {
  Id : string;
  d_name : string;
  d_family : string;
  d_description : string;
  parameter_old : option (gmap string ParameterItem);
  parameter_new : option (gmap string ParameterItem);
  partial : bool;
  partialMap : option (list string)
}.

Definition SetId (v : string) (d : ResourceData) : ResourceData :=
  mkData v (d_name d) (d_family d) (d_description d)
         (parameter_old d) (parameter_new d) (partial d) (partialMap d).

(** [d.Partial(on)]. *)
Definition Partial (on : bool) (d : ResourceData) : ResourceData :=
  mkData (Id d) (d_name d) (d_family d) (d_description d)
         (parameter_old d) (parameter_new d) on
         (if on
          then Some (default [] (partialMap d))
          else None).

(** [d.SetPartial(k)]. *)
Definition SetPartial (k : string) (d : ResourceData) : ResourceData :=
  if partial d
  then mkData (Id d) (d_name d) (d_family d) (d_description d)
              (parameter_old d) (parameter_new d) (partial d)
              (Some (k :: default [] (partialMap d)))
  else d.

(** [d.Set] on the three string attributes. *)
Definition Set_name (v : string) (d : ResourceData) : ResourceData :=
  mkData (Id d) v (d_family d) (d_description d)
         (parameter_old d) (parameter_new d) (partial d) (partialMap d).

Definition Set_family (v : string) (d : ResourceData) : ResourceData :=
  mkData (Id d) (d_name d) v (d_description d)
         (parameter_old d) (parameter_new d) (partial d) (partialMap d).

Definition Set_description (v : string) (d : ResourceData) : ResourceData :=
  mkData (Id d) (d_name d) (d_family d) v
         (parameter_old d) (parameter_new d) (partial d) (partialMap d).

(** [d.HasChange("parameter")]: a set is compared with [Set.Equal], which
    is false against nil; a nil old value is compared with
    [reflect.DeepEqual]. *)
Definition HasChange_parameter (d : ResourceData) : bool :=
  match parameter_old d with
  | Some o =>
      negb match parameter_new d with
           | Some n => Set_Equal o n
           | None => false
           end
  | None =>
      negb match parameter_new d with
           | Some _ => false
           | None => true
           end
  end.

(** The batch size (line 20). *)
Definition maxParams : nat := 20.

(** Modelled from the spec: [expandNeptuneParameters] is defined elsewhere
    in package [aws].  The spec has the removal and addition lists hold
    the elements of the difference themselves, with name, value in its
    original case and apply method; the conversion is element by element
    and reports no error. *)
Definition expandNeptuneParameters (configured : list ParameterItem)
  : list neptune_Parameter * option error :=
  ((λ data, mkParameter (item_apply_method data) (item_name data)
                        (item_value data)) <$> configured, None).

(** Modelled from the spec: [flattenNeptuneParameters] is defined elsewhere
    in package [aws].  The spec has it translate the remote parameters back
    into tuples whose apply method is left empty. *)
Definition flattenNeptuneParameters (params : list neptune_Parameter)
  : list ParameterItem :=
  (λ i, mkItem (ParameterName i) (ParameterValue i) "") <$> params.

(** Modelled from the spec: [isAWSErr] is defined elsewhere in package
    [aws].  The spec classifies a remote error by its kind; the code passes
    an error code and a message fragment: the error is an SDK error with
    that code whose message contains the fragment. *)
Definition isAWSErr_model (err : error) (code message : string) : bool :=
  match err with
  | AwsError c m => String.eqb c code && strings.Contains m message
  | _ => false
  end.

(** ** A scripted remote

    For running the resource on concrete inputs: every remote call takes
    the next reply of a script, whatever the call is, and the time the
    reply says; a reply of the wrong shape, or none, is a plain error. *)
Inductive Reply : Type :=
  | ReplyOk
  | ReplyError (err : error)
  | ReplyCreated (groupName : string)
  | ReplyGroups (groups : list DBParameterGroup)
  | ReplyPages (pages : list (list neptune_Parameter)).

Record Scripted : Type := mkScripted {
  script : list (Reply * N);
  took : N
}.

Definition nextReply (w : Scripted) : Reply * Scripted :=
  match script w with
  | [] => (ReplyError (PlainError "no reply scripted"), mkScripted [] 0)
  | (r, ms) :: rest => (r, mkScripted rest ms)
  end.

Definition unexpected : error := PlainError "unexpected reply".

Definition scriptedCall {A : Type} (decode : Reply → A) (w : Scripted)
  : A * Scripted :=
  let '(r, w') := nextReply w in (decode r, w').

Definition decodeErr (r : Reply) : option error :=
  match r with
  | ReplyOk => None
  | ReplyError err => Some err
  | _ => Some unexpected
  end.

Definition scriptedConn : NeptuneAPI Scripted :=
  mkAPI Scripted
    (λ _, scriptedCall (λ r, match r with
                             | ReplyCreated n => inl n
                             | ReplyError err => inr err
                             | _ => inr unexpected
                             end))
    (λ _, scriptedCall (λ r, match r with
                             | ReplyGroups gs => inl gs
                             | ReplyError err => inr err
                             | _ => inr unexpected
                             end))
    (λ _ _, scriptedCall (λ r, match r with
                               | ReplyPages ps => (ps, None)
                               | ReplyError err => ([], Some err)
                               | _ => ([], Some unexpected)
                               end))
    (λ _ _, scriptedCall decodeErr)
    (λ _ _, scriptedCall decodeErr)
    (λ _, scriptedCall decodeErr)
    took.

(** The start of a run against a script. *)
Definition startWorld (replies : list (Reply * N)) : World Scripted :=
  mkWorld (mkScripted replies 0) 0 [].

(** ** The resource

    [ToLower] is [strings.ToLower], [hashcode_String] is [hashcode.String],
    [isAWSErr] is the helper of package [aws] of that name, and [conn] is
    the Neptune client of the provider. *)
Section Resource.

Context (ToLower : string → string).
Context (hashcode_String : string → Z).
Context (isAWSErr : error → string → string → bool).
Context {W : Type} (conn : NeptuneAPI W).

(** Lines 268-276: the set hash of a parameter.  The buffer receives the
    name and the lower-cased value, each followed by a dash. *)
Definition resourceAwsNeptuneParameterHash (m : ParameterItem) : Z :=
  let buf := "" in
  let buf := buf +:+ (item_name m +:+ "-") in
  let buf := buf +:+ (ToLower (item_value m) +:+ "-") in
  hashcode_String buf.

(** The key of an item in the [parameter] set. *)
Definition parameterKey (m : ParameterItem) : string :=
  Set_hash resourceAwsNeptuneParameterHash m.

(** Two items with the same name whose values agree up to case. *)
Definition sameNameAndFoldedValue (x y : ParameterItem) : Prop :=
  item_name x = item_name y
  ∧ ToLower (item_value x) = ToLower (item_value y).

(** The spec's identity of a parameter (its section 4.1): the name and
    the lower-cased value. *)
Definition spec_identityOf (p : ParameterItem) : string * string :=
  (item_name p, ToLower (item_value p)).

(** [d.Set("parameter", v)]: the list becomes a set under the schema's
    hash function. *)
Definition Set_parameter (v : list ParameterItem) (d : ResourceData)
  : ResourceData * option error :=
  (mkData (Id d) (d_name d) (d_family d) (d_description d)
          (parameter_old d)
          (Some (NewSet resourceAwsNeptuneParameterHash v))
          (partial d) (partialMap d), None).

(** *** Operations on the world *)

Definition Op (A : Type) : Type := World W → A * World W.

Definition ret {A : Type} (a : A) : Op A := λ s, (a, s).

Definition bind {A B : Type} (m : Op A) (k : A → Op B) : Op B :=
  λ s, let '(a, s') := m s in k a s'.

Notation "x <- m ;; k" := (bind m (λ x, k))
  (at level 100, m at next level, right associativity).

(** Issue a remote call: the remote state moves, the clock advances by
    the time the call took, the call and its error are logged. *)
Definition remoteCall {A : Type} (c : Call) (errOf : A → option error)
    (f : W → A * W) : Op A :=
  λ s, let '(r, w') := f (remote s) in
       (r, mkWorld w' (clock s + latency conn w')
                   (events s ++ [mkEvent c (errOf r)])).

Definition sleep (d : N) : Op unit :=
  λ s, (tt, mkWorld (remote s) (clock s + d) (events s)).

Definition now : Op N := λ s, (clock s, s).

(** *** [resource.Retry]

    The helper polls [f] until it succeeds, fails with an error that is
    not retryable, or the timeout has passed; it then returns the last
    error of [f].  Between polls it waits: the wait doubles from zero
    and is kept between 500 ms and 10 s.  The model is sequential: the
    deadline is looked at after each wait.  As each wait is at least
    500 ms, [timeout / 500] further polls always reach the deadline. *)
Definition nextWait (wait : N) : N :=
  let wait := (2 * wait)%N in
  if (wait <? 500)%N then 500%N
  else if (10000 <? wait)%N then 10000%N
  else wait.

Fixpoint retryLoop (polls : nat) (deadline wait : N)
    (f : Op (option RetryError)) : Op (option error) :=
  rerr <- f ;;
  match rerr with
  | None => ret None
  | Some (NonRetryableError err) => ret (Some err)
  | Some (RetryableError err) =>
      let wait := nextWait wait in
      _ <- sleep wait ;;
      t <- now ;;
      if (deadline <=? t)%N then ret (Some err)
      else match polls with
           | O => ret (Some err)
           | S polls' => retryLoop polls' deadline wait f
           end
  end.

Definition Retry (timeout : N) (f : Op (option RetryError))
  : Op (option error) :=
  start <- now ;;
  retryLoop (N.to_nat (timeout / 500)) (start + timeout)%N 0%N f.

(** *** Read (lines 112-159) *)

Definition errOfSum {A : Type} (r : A + error) : option error :=
  match r with inl _ => None | inr e => Some e end.

Definition resourceAwsNeptuneParameterGroupRead (d : ResourceData)
  : Op (ResourceData * option error) :=
  describeResp <- remoteCall (CallDescribeGroups (Id d)) errOfSum
                    (DescribeDBParameterGroups conn (Id d)) ;;
  match describeResp with
  | inr err =>
      if isAWSErr err neptune.ErrCodeDBParameterGroupNotFoundFault ""
      then ret (SetId "" d, None)
      else ret (d, Some err)
  | inl groups =>
      match groups with
      | [g] =>
          if negb (String.eqb (DBParameterGroupName g) (Id d))
          then ret (d, Some (ErrorfGroups
                 "Unable to find Parameter Group: %#v" groups))
          else
            let d := Set_name (DBParameterGroupName g) d in
            let d := Set_family (DBParameterGroupFamily g) d in
            let d := Set_description (Description g) d in
            pages <- remoteCall (CallDescribeParameters (Id d) "user") snd
                       (DescribeDBParametersPages conn (Id d) "user") ;;
            match pages with
            | (_, Some err) => ret (d, Some err)
            | (pages, None) =>
                let parameters := concat pages in
                match Set_parameter (flattenNeptuneParameters parameters) d
                with
                | (d, Some err) =>
                    ret (d, Some (Errorf "error setting parameter: %s" err))
                | (d, None) => ret (d, None)
                end
            end
      | _ => ret (d, Some (ErrorfGroups
               "Unable to find Parameter Group: %#v" groups))
      end
  end.

(** *** Update (lines 161-245) *)

(** Lines 167-190: the old and new sets ([new(schema.Set)] for nil) and
    the two differences, expanded. *)
Definition parameterChanges (d : ResourceData)
  : (list neptune_Parameter * list neptune_Parameter) + error :=
  let os := default ∅ (parameter_old d) in
  let ns := default ∅ (parameter_new d) in
  match expandNeptuneParameters (Set_List (Set_Difference os ns)) with
  | (_, Some err) => inr err
  | (toRemove, None) =>
      match expandNeptuneParameters (Set_List (Set_Difference ns os)) with
      | (_, Some err) => inr err
      | (toAdd, None) => inl (toRemove, toAdd)
      end
  end.

(** Lines 194-198 and 222-226: the next batch and what is left. *)
Definition nextBatch (items : list neptune_Parameter)
  : list neptune_Parameter * list neptune_Parameter :=
  if (length items <=? maxParams)%nat
  then (items, [])
  else (take maxParams items, drop maxParams items).

(** The values [paramsToModify] takes over the iterations of either
    loop when no call fails: the loop without its body. *)
Fixpoint batchesOf (fuel : nat) (items : list neptune_Parameter)
  : list (list neptune_Parameter) :=
  match fuel with
  | O => []
  | S fuel' =>
      if (0 <? length items)%nat then
        let '(paramsToModify, items) := nextBatch items in
        paramsToModify :: batchesOf fuel' items
      else []
  end.

Definition batches (items : list neptune_Parameter)
  : list (list neptune_Parameter) :=
  batchesOf (length items) items.

(** Lines 206-213: one reset call, classified for [resource.Retry]. *)
Definition resetAttempt (d : ResourceData)
    (paramsToModify : list neptune_Parameter) : Op (option RetryError) :=
  err <- remoteCall (CallReset (d_name d) paramsToModify) id
           (ResetDBParameterGroup conn (d_name d) paramsToModify) ;;
  match err with
  | Some err =>
      if isAWSErr err "InvalidDBParameterGroupState" " has pending changes"
      then ret (Some (RetryableError err))
      else ret (Some (NonRetryableError err))
  | None => ret None
  end.

(** Lines 192-218: the removal loop.  [fuel] bounds the iterations;
    [length toRemove] is enough, as every iteration takes a batch off. *)
Fixpoint removeLoop (fuel : nat) (d : ResourceData)
    (toRemove : list neptune_Parameter) : Op (option error) :=
  match fuel with
  | O => ret None
  | S fuel' =>
      if (0 <? length toRemove)%nat then
        let '(paramsToModify, toRemove) := nextBatch toRemove in
        err <- Retry (30 * time_Second) (resetAttempt d paramsToModify) ;;
        match err with
        | Some err =>
            ret (Some (Errorf
                   "Error resetting Neptune Parameter Group: %s" err))
        | None => removeLoop fuel' d toRemove
        end
      else ret None
  end.

(** Lines 220-237: the addition loop. *)
Fixpoint addLoop (fuel : nat) (d : ResourceData)
    (toAdd : list neptune_Parameter) : Op (option error) :=
  match fuel with
  | O => ret None
  | S fuel' =>
      if (0 <? length toAdd)%nat then
        let '(paramsToModify, toAdd) := nextBatch toAdd in
        err <- remoteCall (CallModify (d_name d) paramsToModify) id
                 (ModifyDBParameterGroup conn (d_name d) paramsToModify) ;;
        match err with
        | Some err =>
            ret (Some (Errorf
                   "Error modifying Neptune Parameter Group: %s" err))
        | None => addLoop fuel' d toAdd
        end
      else ret None
  end.

(** Lines 166-240: the body of [if d.HasChange("parameter")]; an error
    is the early return of the function. *)
Definition updateParameters (d : ResourceData)
  : Op (ResourceData * option error) :=
  if HasChange_parameter d then
    match parameterChanges d with
    | inr err => ret (d, Some err)
    | inl (toRemove, toAdd) =>
        err <- removeLoop (length toRemove) d toRemove ;;
        match err with
        | Some err => ret (d, Some err)
        | None =>
            err <- addLoop (length toAdd) d toAdd ;;
            match err with
            | Some err => ret (d, Some err)
            | None => ret (SetPartial "parameter" d, None)
            end
        end
    end
  else ret (d, None).

Definition resourceAwsNeptuneParameterGroupUpdate (d : ResourceData)
  : Op (ResourceData * option error) :=
  let d := Partial true d in
  r <- updateParameters d ;;
  match r with
  | (d, Some err) => ret (d, Some err)
  | (d, None) =>
      let d := Partial false d in
      resourceAwsNeptuneParameterGroupRead d
  end.

(** *** Create (lines 85-110) *)

Definition resourceAwsNeptuneParameterGroupCreate (d : ResourceData)
  : Op (ResourceData * option error) :=
  let createOpts :=
    mkCreateInput (d_name d) (d_family d) (d_description d) in
  resp <- remoteCall (CallCreate createOpts) errOfSum
            (CreateDBParameterGroup conn createOpts) ;;
  match resp with
  | inr err =>
      ret (d, Some (Errorf "Error creating Neptune Parameter Group: %s" err))
  | inl groupName =>
      let d := Partial true d in
      let d := SetPartial "name" d in
      let d := SetPartial "family" d in
      let d := SetPartial "description" d in
      let d := Partial false d in
      let d := SetId groupName d in
      resourceAwsNeptuneParameterGroupUpdate d
  end.

(** *** Delete (lines 247-266) *)

Definition deleteAttempt (d : ResourceData) : Op (option RetryError) :=
  err <- remoteCall (CallDelete (Id d)) id
           (DeleteDBParameterGroup conn (Id d)) ;;
  match err with
  | Some err =>
      if isAWSErr err neptune.ErrCodeDBParameterGroupNotFoundFault ""
      then ret None
      else if isAWSErr err neptune.ErrCodeInvalidDBParameterGroupStateFault ""
      then ret (Some (RetryableError err))
      else ret (Some (NonRetryableError err))
  | None => ret None
  end.

Definition resourceAwsNeptuneParameterGroupDelete (d : ResourceData)
  : Op (option error) :=
  Retry (3 * time_Minute) (deleteAttempt d).

(** ** Vocabulary of the properties *)

(** The classification of line 208. *)
Definition pendingChanges (err : error) : bool :=
  isAWSErr err "InvalidDBParameterGroupState" " has pending changes".

Definition resetFormat : string :=
  "Error resetting Neptune Parameter Group: %s".

Definition modifyFormat : string :=
  "Error modifying Neptune Parameter Group: %s".

Definition isReset (ev : Event) : bool :=
  match ev_call ev with CallReset _ _ => true | _ => false end.

Definition isModify (ev : Event) : bool :=
  match ev_call ev with CallModify _ _ => true | _ => false end.

Definition isDescribe (ev : Event) : bool :=
  match ev_call ev with
  | CallDescribeGroups _ | CallDescribeParameters _ _ => true
  | _ => false
  end.

(** A logged call [c] that failed with an error [retryable] accepts. *)
Definition retriedCall (c : Call) (retryable : error → bool) (ev : Event)
  : Prop :=
  ev_call ev = c ∧ ∃ e, ev_err ev = Some e ∧ retryable e = true.

(** The log of the removal loop over the batches [bs], with its result:
    each batch is reset, after any number of resets that failed with the
    transient conflict; the first reset that is given up ends the log. *)
Inductive ResetRun (name : string)
  : list (list neptune_Parameter) → list Event → option error → Prop :=
  | ResetRun_done : ResetRun name [] [] None
  | ResetRun_batch b bs retried evs r :
      Forall (retriedCall (CallReset name b) pendingChanges) retried →
      ResetRun name bs evs r →
      ResetRun name (b :: bs)
               (retried ++ mkEvent (CallReset name b) None :: evs) r
  | ResetRun_abort b bs retried e :
      Forall (retriedCall (CallReset name b) pendingChanges) retried →
      ResetRun name (b :: bs)
               (retried ++ [mkEvent (CallReset name b) (Some e)])
               (Some (Errorf resetFormat e)).

(** The log of the addition loop over the batches [bs], with its result:
    one modify call per batch, up to the first that fails. *)
Inductive ModifyRun (name : string)
  : list (list neptune_Parameter) → list Event → option error → Prop :=
  | ModifyRun_done : ModifyRun name [] [] None
  | ModifyRun_batch b bs evs r :
      ModifyRun name bs evs r →
      ModifyRun name (b :: bs) (mkEvent (CallModify name b) None :: evs) r
  | ModifyRun_abort b bs e :
      ModifyRun name (b :: bs) [mkEvent (CallModify name b) (Some e)]
                (Some (Errorf modifyFormat e)).

(** [f] is one remote call [c] whose error [classify] turns into the
    answer for [resource.Retry]. *)
Definition IsAttempt (c : Call)
    (classify : option error → option RetryError)
    (f : Op (option RetryError)) : Prop :=
  ∀ s, ∃ o s',
    f s = (classify o, s')
    ∧ events s' = events s ++ [mkEvent c o]
    ∧ (clock s ≤ clock s')%N.

(** Lines 207-213 as a function of the error of the reset call. *)
Definition classifyReset (o : option error) : option RetryError :=
  match o with
  | Some err =>
      if pendingChanges err then Some (RetryableError err)
      else Some (NonRetryableError err)
  | None => None
  end.

(** Lines 255-264 as a function of the error of the delete call. *)
Definition classifyDelete (o : option error) : option RetryError :=
  match o with
  | Some err =>
      if isAWSErr err neptune.ErrCodeDBParameterGroupNotFoundFault ""
      then None
      else if isAWSErr err neptune.ErrCodeInvalidDBParameterGroupStateFault ""
      then Some (RetryableError err)
      else Some (NonRetryableError err)
  | None => None
  end.

(** The two classifications of the delete (lines 256 and 259). *)
Definition notFound (err : error) : bool :=
  isAWSErr err neptune.ErrCodeDBParameterGroupNotFoundFault "".

Definition invalidState (err : error) : bool :=
  isAWSErr err neptune.ErrCodeInvalidDBParameterGroupStateFault "".

(** Each call of [cs] issued [S k] times in a row, [k] taken from [ks];
    the calls beyond the length of [ks] are not issued. *)
Fixpoint repeated (ks : list nat) (cs : list Call) : list Call :=
  match ks, cs with
  | k :: ks, c :: cs => replicate (S k) c ++ repeated ks cs
  | _, _ => []
  end.

(** The log [R ++ M] of the two loops over [toRemove] and [toAdd], with
    the result [r]: the removal is given up and nothing is added, or the
    removal is through and the addition runs. *)
Definition PipelineRun (name : string)
    (toRemove toAdd : list neptune_Parameter)
    (R M : list Event) (r : option error) : Prop :=
  (∃ e, ResetRun name (batches toRemove) R (Some e) ∧ M = [] ∧ r = Some e)
  ∨ (ResetRun name (batches toRemove) R None
     ∧ ModifyRun name (batches toAdd) M r).

(** Line 275: the contents of the buffer that is hashed. *)
Definition hashInput (m : ParameterItem) : string :=
  (item_name m +:+ "-") +:+ (ToLower (item_value m) +:+ "-").

(** Whether a string holds the dash that separates the two fields. *)
Fixpoint hasDash (s : string) : bool :=
  match s with
  | EmptyString => false
  | String c s' => Ascii.eqb c "-" || hasDash s'
  end.

(** The parameters a reset or modify call carries. *)
Definition callParameters (c : Call) : list neptune_Parameter :=
  match c with
  | CallReset _ ps | CallModify _ ps => ps
  | _ => []
  end.

(** The parameters of the calls of a log that succeeded, in order. *)
Definition applied (evs : list Event) : list neptune_Parameter :=
  concat (omap (λ ev, match ev_err ev with
                      | None => Some (callParameters (ev_call ev))
                      | Some _ => None
                      end) evs).

(** What a call of an update on [d] looks like: a reset or modify of the
    group named [d.Get("name")] with 1 to [maxParams] parameters, or a
    describe of the group [d.Id()], of its user parameters. *)
Definition updateCall (d : ResourceData) (ev : Event) : Prop :=
  match ev_call ev with
  | CallReset n ps | CallModify n ps =>
      n = d_name d ∧ (1 ≤ length ps ≤ maxParams)%nat
  | CallDescribeGroups n => n = Id d
  | CallDescribeParameters n source => n = Id d ∧ source = "user"
  | CallCreate _ | CallDelete _ => False
  end.

(** *** Timed runs

    The runs below follow the world, clock included, from attempt to
    attempt. *)

(** One attempt of the call [c]: the remote answers [o] from the state of
    [s]; [s1] is [s] after the call. *)
Definition attemptFrom (c : Call) (run : W → option error * W)
    (s : World W) (o : option error) (s1 : World W) : Prop :=
  ∃ w', run (remote s) = (o, w')
        ∧ s1 = mkWorld w' (clock s + latency conn w')
                       (events s ++ [mkEvent c o]).

(** [s] after a wait of [ms] milliseconds. *)
Definition slept (ms : N) (s : World W) : World W :=
  mkWorld (remote s) (clock s + ms) (events s).

(** A run of [resource.Retry] on the call [c] with the deadline
    [deadline], the last wait having been [wait]: an attempt that succeeds
    or fails for good ends the run at once; after an attempt that fails
    with a retryable error the run waits [nextWait wait], and then gives
    up with that error when the deadline is reached, and otherwise goes
    on with a further attempt. *)
Inductive RetryRun (c : Call) (run : W → option error * W)
    (classify : option error → option RetryError) (deadline : N)
  : N → World W → option error → World W → Prop :=
  | RetryRun_success wait s o s1 :
      attemptFrom c run s o s1 →
      classify o = None →
      RetryRun c run classify deadline wait s None s1
  | RetryRun_fatal wait s o s1 e :
      attemptFrom c run s o s1 →
      classify o = Some (NonRetryableError e) →
      RetryRun c run classify deadline wait s (Some e) s1
  | RetryRun_expired wait s o s1 e :
      attemptFrom c run s o s1 →
      classify o = Some (RetryableError e) →
      (deadline ≤ clock s1 + nextWait wait)%N →
      RetryRun c run classify deadline wait s (Some e)
               (slept (nextWait wait) s1)
  | RetryRun_again wait s o s1 e r s' :
      attemptFrom c run s o s1 →
      classify o = Some (RetryableError e) →
      (clock s1 + nextWait wait < deadline)%N →
      RetryRun c run classify deadline (nextWait wait)
               (slept (nextWait wait) s1) r s' →
      RetryRun c run classify deadline wait s r s'.

(** The run of the retried reset of one batch [b], started in [s]
    (lines 199-214): the deadline is 30 seconds after the start. *)
Definition ResetBatchRun (name : string) (b : list neptune_Parameter)
    (s : World W) (r : option error) (s' : World W) : Prop :=
  RetryRun (CallReset name b) (ResetDBParameterGroup conn name b)
           classifyReset (clock s + 30 * time_Second) 0 s r s'.

(** The run of the removal loop over the batches [bs], started in [s]:
    batch after batch, each with a deadline of its own, up to the first
    whose reset is given up. *)
Inductive RemovalRun (name : string)
  : list (list neptune_Parameter) → World W → option error → World W → Prop :=
  | RemovalRun_done s : RemovalRun name [] s None s
  | RemovalRun_batch b bs s s1 r s' :
      ResetBatchRun name b s None s1 →
      RemovalRun name bs s1 r s' →
      RemovalRun name (b :: bs) s r s'
  | RemovalRun_abort b bs s e s1 :
      ResetBatchRun name b s (Some e) s1 →
      RemovalRun name (b :: bs) s (Some (Errorf resetFormat e)) s1.

(** The run of a delete started in [s] (lines 250-265): the deadline is
    3 minutes after the start. *)
Definition DeleteRun (d : ResourceData)
    (s : World W) (r : option error) (s' : World W) : Prop :=
  RetryRun (CallDelete (Id d)) (DeleteDBParameterGroup conn (Id d))
           classifyDelete (clock s + 3 * time_Minute) 0 s r s'.

(** ** Properties *)

(** *** The order of set keys *)

Lemma compare_not_Gt_trans (a b c : string) :
  String.compare a b ≠ Gt → String.compare b c ≠ Gt →
  String.compare a c ≠ Gt.
Proof.
  revert b c.
  induction a as [|x a IH]; intros [|y b] [|z c]; simpl; try congruence.
  unfold Ascii.compare.
  destruct (N.compare_spec (N_of_ascii x) (N_of_ascii y)) as [Hxy|Hxy|Hxy];
    destruct (N.compare_spec (N_of_ascii y) (N_of_ascii z)) as [Hyz|Hyz|Hyz];
    destruct (N.compare_spec (N_of_ascii x) (N_of_ascii z)) as [Hxz|Hxz|Hxz];
    try congruence; try lia; eauto.
Qed.

#[local] Instance bytesLe_trans : Transitive bytesLe.
Proof.
  intros a b c. unfold bytesLe, String.leb. intros Hab Hbc.
  pose proof (compare_not_Gt_trans a b c) as H.
  destruct (String.compare a b), (String.compare b c), (String.compare a c);
    try done; exfalso; apply H; congruence.
Qed.

#[local] Instance bytesLe_total : Total bytesLe.
Proof. intros a b. apply String.leb_total. Qed.

#[local] Instance bytesLe_antisymm : AntiSymm (=) bytesLe.
Proof. intros a b. apply String.leb_antisym. Qed.

(** *** The hash-keyed set *)

Lemma elem_of_Set_listCode (s : gmap string ParameterItem) (k : string) :
  k ∈ Set_listCode s ↔ is_Some (s !! k).
Proof.
  unfold Set_listCode. rewrite merge_sort_Permutation, list_elem_of_fmap.
  split.
  - intros [[k' v] [-> H]]. apply elem_of_map_to_list in H. eauto.
  - intros [v H]. exists (k, v). split; [done|].
    by apply elem_of_map_to_list.
Qed.

Lemma NoDup_Set_listCode (s : gmap string ParameterItem) :
  NoDup (Set_listCode s).
Proof.
  unfold Set_listCode. rewrite merge_sort_Permutation.
  apply NoDup_fst_map_to_list.
Qed.

Lemma Sorted_Set_listCode (s : gmap string ParameterItem) :
  StronglySorted bytesLe (Set_listCode s).
Proof. apply StronglySorted_merge_sort; apply _. Qed.

Lemma elem_of_Set_List (s : gmap string ParameterItem) (x : ParameterItem) :
  x ∈ Set_List s ↔ ∃ k, s !! k = Some x.
Proof.
  unfold Set_List. rewrite list_elem_of_omap. split.
  - intros (k & _ & H). eauto.
  - intros [k H]. exists k. split; [|done].
    apply elem_of_Set_listCode. eauto.
Qed.

Lemma StronglySorted_filter_keys (P : string → Prop)
    `{!∀ k, Decision (P k)} (l : list string) :
  StronglySorted bytesLe l → StronglySorted bytesLe (filter P l).
Proof.
  induction 1 as [|k l Hl IH Hk]; [constructor|].
  rewrite filter_cons. case_decide; [|done].
  constructor; [done|].
  rewrite Forall_forall in Hk |- *.
  intros y Hy. apply list_elem_of_filter in Hy as [_ Hy].
  apply Hk, Hy.
Qed.

(** The sorted keys of a difference are the sorted keys of the set,
    without the keys of the other set. *)
Lemma Set_listCode_Difference (s other : gmap string ParameterItem) :
  Set_listCode (Set_Difference s other)
  = filter (λ k, other !! k = None) (Set_listCode s).
Proof.
  apply (StronglySorted_unique bytesLe).
  - apply Sorted_Set_listCode.
  - apply StronglySorted_filter_keys, Sorted_Set_listCode.
  - apply NoDup_Permutation.
    + apply NoDup_Set_listCode.
    + apply NoDup_filter, NoDup_Set_listCode.
    + intros k. rewrite list_elem_of_filter, !elem_of_Set_listCode.
      unfold Set_Difference. split.
      * intros [v Hv]. apply map_lookup_filter_Some in Hv as [Hv Ho].
        simpl in Ho. eauto.
      * intros [Ho [v Hv]]. exists v.
        apply map_lookup_filter_Some. done.
Qed.

Lemma Set_List_Difference (F : ParameterItem → Z)
    (s other : gmap string ParameterItem) :
  Set_keyed F s →
  Set_List (Set_Difference s other)
  = filter (λ x, other !! Set_hash F x = None) (Set_List s).
Proof.
  intros Hs. unfold Set_List. rewrite Set_listCode_Difference.
  induction (Set_listCode s) as [|k l IH]; [done|].
  rewrite filter_cons. simpl. case_decide as Hk.
  - simpl. unfold Set_Difference at 1.
    rewrite map_lookup_filter. destruct (s !! k) as [v|] eqn:Hv; simpl.
    + rewrite option_guard_True by done. simpl.
      rewrite filter_cons, decide_True by (by rewrite (Hs k v Hv)).
      f_equal. apply IH.
    + apply IH.
  - destruct (s !! k) as [v|] eqn:Hv; simpl; [|apply IH].
    rewrite filter_cons, decide_False by (by rewrite (Hs k v Hv)).
    apply IH.
Qed.

Lemma Set_keyed_lookup (F : ParameterItem → Z)
    (s : gmap string ParameterItem) (x : ParameterItem) :
  Set_keyed F s →
  s !! Set_hash F x = None ↔ Set_hash F x ∉ Set_hash F <$> Set_List s.
Proof.
  intros Hs. rewrite list_elem_of_fmap. split.
  - intros Hnone (y & Hxy & Hy). apply elem_of_Set_List in Hy as [k Hk].
    rewrite Hxy, (Hs k y Hk) in Hnone. congruence.
  - intros Hnot. destruct (s !! Set_hash F x) as [y|] eqn:Hy; [|done].
    exfalso. apply Hnot. exists y. split.
    + symmetry. by apply Hs.
    + apply elem_of_Set_List. eauto.
Qed.

Lemma Set_add_keyed (F : ParameterItem → Z)
    (s : gmap string ParameterItem) (x : ParameterItem) :
  Set_keyed F s → Set_keyed F (Set_add F s x).
Proof.
  intros Hs k v. unfold Set_add.
  destruct (s !! Set_hash F x) eqn:Hx; [apply Hs|].
  rewrite lookup_insert. case_decide; [|apply Hs]. congruence.
Qed.

Lemma NewSet_keyed (F : ParameterItem → Z) (items : list ParameterItem) :
  Set_keyed F (NewSet F items).
Proof.
  unfold NewSet.
  assert (Set_keyed F (∅ : gmap string ParameterItem)) as H0
    by (intros k v; by rewrite lookup_empty).
  revert H0. generalize (∅ : gmap string ParameterItem).
  induction items as [|x items IH]; intros s Hs; [done|].
  simpl. apply IH, Set_add_keyed, Hs.
Qed.

Lemma Set_List_empty : Set_List ∅ = [].
Proof. unfold Set_List, Set_listCode. by rewrite map_to_list_empty. Qed.

Lemma Set_Difference_covered (s other : gmap string ParameterItem) :
  (∀ k, is_Some (s !! k) → is_Some (other !! k)) →
  Set_Difference s other = ∅.
Proof.
  intros H. apply map_eq. intros k. rewrite lookup_empty.
  destruct (Set_Difference s other !! k) as [v|] eqn:Hv; [|done].
  apply map_lookup_filter_Some in Hv as [Hv Ho]. simpl in Ho.
  destruct (H k) as [y Hy]; [eauto|congruence].
Qed.

(** The hash sees the name and the folded value only. *)
Lemma sameNameAndFoldedValue_key (x y : ParameterItem) :
  sameNameAndFoldedValue x y → parameterKey x = parameterKey y.
Proof.
  intros [Hn Hv]. unfold parameterKey, Set_hash.
  unfold resourceAwsNeptuneParameterHash. by rewrite Hn, Hv.
Qed.

(** *** The diff of the update *)

(** C1 (as amended): with the old and new value of [parameter] two sets
    that hold every element under its own key, [toRemove] is the listing
    of the old set without the elements whose key (the hash code of name,
    dash, lower-cased value, dash) is the key of an element of the new
    set, and [toAdd] is the same with old and new exchanged; a set
    against itself gives two empty lists. *)
Theorem parameterChanges_by_key (d : ResourceData)
    (os ns : gmap string ParameterItem) :
  parameter_old d = Some os →
  parameter_new d = Some ns →
  Set_keyed resourceAwsNeptuneParameterHash os →
  Set_keyed resourceAwsNeptuneParameterHash ns →
  parameterChanges d
  = inl ((expandNeptuneParameters
            (filter (λ x, parameterKey x ∉ parameterKey <$> Set_List ns)
                    (Set_List os))).1,
         (expandNeptuneParameters
            (filter (λ x, parameterKey x ∉ parameterKey <$> Set_List os)
                    (Set_List ns))).1)
  ∧ (os = ns → parameterChanges d = inl ([], [])).
Proof.
  intros Ho Hn Hos Hns.
  assert (parameterChanges d
          = inl ((expandNeptuneParameters
                    (Set_List (Set_Difference os ns))).1,
                 (expandNeptuneParameters
                    (Set_List (Set_Difference ns os))).1)) as Hd.
  { unfold parameterChanges. rewrite Ho, Hn. reflexivity. }
  split.
  - rewrite Hd.
    rewrite (Set_List_Difference _ os ns Hos).
    rewrite (Set_List_Difference _ ns os Hns).
    do 2 f_equal; f_equal; f_equal; apply list_filter_iff; intros x;
      unfold parameterKey; by apply Set_keyed_lookup.
  - intros ->. rewrite Hd.
    rewrite Set_Difference_covered by done.
    by rewrite Set_List_empty.
Qed.

(** C4: the set hash of a parameter depends on its name and on its value
    up to case only, not on its apply method; hence when every element of
    the old set has an element of the new set with the same name and the
    same value up to case, and the other way round, both [toRemove] and
    [toAdd] are empty. *)
Theorem hash_ignores_case_and_apply_method :
  (∀ n v w a b : string,
      ToLower v = ToLower w →
      resourceAwsNeptuneParameterHash (mkItem n v a)
      = resourceAwsNeptuneParameterHash (mkItem n w b))
  ∧ (∀ (d : ResourceData) (os ns : gmap string ParameterItem),
      parameter_old d = Some os →
      parameter_new d = Some ns →
      Set_keyed resourceAwsNeptuneParameterHash os →
      Set_keyed resourceAwsNeptuneParameterHash ns →
      (∀ x, x ∈ Set_List os →
            ∃ y, y ∈ Set_List ns ∧ sameNameAndFoldedValue x y) →
      (∀ y, y ∈ Set_List ns →
            ∃ x, x ∈ Set_List os ∧ sameNameAndFoldedValue x y) →
      parameterChanges d = inl ([], [])).
Proof.
  split.
  - intros n v w a b Hvw. unfold resourceAwsNeptuneParameterHash. simpl.
    by rewrite Hvw.
  - intros d os ns Ho Hn Hos Hns Hon Hno.
    unfold parameterChanges. rewrite Ho, Hn. simpl.
    rewrite !Set_Difference_covered, Set_List_empty; [done| |].
    + intros k [y Hy].
      destruct (Hno y) as (x & Hx & Hxy); [apply elem_of_Set_List; eauto|].
      apply elem_of_Set_List in Hx as [k' Hk'].
      apply sameNameAndFoldedValue_key in Hxy. unfold parameterKey in Hxy.
      rewrite (Hos k' x Hk'), (Hns k y Hy) in Hxy. subst k'. eauto.
    + intros k [x Hx].
      destruct (Hon x) as (y & Hy & Hxy); [apply elem_of_Set_List; eauto|].
      apply elem_of_Set_List in Hy as [k' Hk'].
      apply sameNameAndFoldedValue_key in Hxy. unfold parameterKey in Hxy.
      rewrite (Hos k x Hx), (Hns k' y Hk') in Hxy. subst k'. eauto.
Qed.

(** *** Batches *)

Lemma batchesOf_nil (fuel : nat) : batchesOf fuel [] = [].
Proof. by destruct fuel. Qed.

Lemma batchesOf_last (fuel : nat) (items : list neptune_Parameter) :
  (0 < length items ≤ maxParams)%nat →
  batchesOf (S fuel) items = [items].
Proof.
  intros [H0 H1]. simpl. unfold nextBatch.
  destruct (Nat.ltb_spec 0 (length items)); [|lia].
  destruct (Nat.leb_spec (length items) maxParams); [|lia].
  by rewrite batchesOf_nil.
Qed.

Lemma batchesOf_more (fuel : nat) (items : list neptune_Parameter) :
  (maxParams < length items)%nat →
  batchesOf (S fuel) items
  = take maxParams items :: batchesOf fuel (drop maxParams items).
Proof.
  intros H. simpl. unfold nextBatch.
  destruct (Nat.ltb_spec 0 (length items)); [|lia].
  destruct (Nat.leb_spec (length items) maxParams); [lia|done].
Qed.

(** Induction along the iterations of a loop with enough fuel: no item,
    a last batch, or a full batch and the rest. *)
Lemma batches_ind (P : nat → list neptune_Parameter → Prop) :
  (∀ fuel, P fuel []) →
  (∀ fuel items,
      (0 < length items ≤ maxParams)%nat → P (S fuel) items) →
  (∀ fuel items,
      (maxParams < length items)%nat →
      (length (drop maxParams items) ≤ fuel)%nat →
      P fuel (drop maxParams items) → P (S fuel) items) →
  ∀ fuel items, (length items ≤ fuel)%nat → P fuel items.
Proof.
  intros Hnil Hlast Hmore fuel.
  induction fuel as [|fuel IH]; intros items Hlen.
  - destruct items; [apply Hnil|simpl in Hlen; lia].
  - destruct items as [|x items]; [apply Hnil|].
    destruct (decide (length (x :: items) ≤ maxParams)%nat).
    + apply Hlast. simpl in *. lia.
    + assert (length (drop maxParams (x :: items)) ≤ fuel)%nat.
      { rewrite length_drop. unfold maxParams in *. simpl in *. lia. }
      apply Hmore; [lia|done|]. by apply IH.
Qed.

Lemma batchesOf_concat (fuel : nat) (items : list neptune_Parameter) :
  (length items ≤ fuel)%nat → concat (batchesOf fuel items) = items.
Proof.
  revert fuel items. apply batches_ind.
  - intros. by rewrite batchesOf_nil.
  - intros. rewrite batchesOf_last by done. simpl. by rewrite app_nil_r.
  - intros fuel items H Hl IH. rewrite batchesOf_more by done. simpl.
    rewrite IH. apply take_drop.
Qed.

Lemma batchesOf_sizes (fuel : nat) (items : list neptune_Parameter) :
  (length items ≤ fuel)%nat →
  Forall (λ b, 1 ≤ length b ≤ maxParams)%nat (batchesOf fuel items).
Proof.
  revert fuel items. apply batches_ind.
  - intros. by rewrite batchesOf_nil.
  - intros. rewrite batchesOf_last by done.
    constructor; [lia|constructor].
  - intros fuel items H Hl IH. rewrite batchesOf_more by done.
    constructor; [|done].
    rewrite length_take. unfold maxParams in *. lia.
Qed.

Lemma batchesOf_count (fuel : nat) (items : list neptune_Parameter) :
  (length items ≤ fuel)%nat →
  length (batchesOf fuel items) = ((length items + 19) / 20)%nat.
Proof.
  revert fuel items. apply batches_ind.
  - intros. by rewrite batchesOf_nil.
  - intros. rewrite batchesOf_last by done. cbn [length].
    unfold maxParams in *.
    apply Nat.div_unique with (r := (length items - 1)%nat); lia.
  - intros fuel items H Hl IH. rewrite batchesOf_more by done.
    cbn [length]. rewrite IH, length_drop. unfold maxParams in *.
    replace (length items + 19)%nat
      with ((length items - 20 + 19) + 1 * 20)%nat by lia.
    rewrite Nat.div_add by lia. lia.
Qed.

Lemma batchesOf_full (fuel : nat) (items : list neptune_Parameter) :
  (length items ≤ fuel)%nat →
  ∀ i b, batchesOf fuel items !! i = Some b →
         (S i < length (batchesOf fuel items))%nat →
         length b = maxParams.
Proof.
  revert fuel items.
  refine (batches_ind
            (λ fuel items, ∀ i b,
                 batchesOf fuel items !! i = Some b →
                 (S i < length (batchesOf fuel items))%nat →
                 length b = maxParams) _ _ _).
  - intros. rewrite batchesOf_nil in *. done.
  - intros fuel items H i b. rewrite batchesOf_last by done. simpl. lia.
  - intros fuel items H Hl IH i b. rewrite batchesOf_more by done. simpl.
    destruct i as [|i]; simpl.
    + intros [= <-] _. rewrite length_take. lia.
    + intros Hb Hi. apply (IH i b Hb). lia.
Qed.

(** *** Remote calls and [resource.Retry] *)

Lemma remoteCall_spec {A : Type} (c : Call) (errOf : A → option error)
    (f : W → A * W) (s : World W) (r : A) (s' : World W) :
  remoteCall c errOf f s = (r, s') →
  events s' = events s ++ [mkEvent c (errOf r)]
  ∧ (clock s ≤ clock s')%N
  ∧ f (remote s) = (r, remote s').
Proof.
  unfold remoteCall. destruct (f (remote s)) as [r0 w'].
  intros [= <- <-]. simpl. split_and!; [done|lia|done].
Qed.

Lemma resetAttempt_IsAttempt (d : ResourceData)
    (b : list neptune_Parameter) :
  IsAttempt (CallReset (d_name d) b) classifyReset (resetAttempt d b).
Proof.
  intros s. unfold resetAttempt, bind.
  destruct (remoteCall _ _ _ s) as [o s1] eqn:E.
  apply remoteCall_spec in E as (Hev & Hck & _).
  exists o, s1. split; [|done].
  unfold classifyReset, pendingChanges, ret.
  destruct o as [e|]; [|done]. by destruct (isAWSErr _ _ _).
Qed.

Lemma deleteAttempt_IsAttempt (d : ResourceData) :
  IsAttempt (CallDelete (Id d)) classifyDelete (deleteAttempt d).
Proof.
  intros s. unfold deleteAttempt, bind.
  destruct (remoteCall _ _ _ s) as [o s1] eqn:E.
  apply remoteCall_spec in E as (Hev & Hck & _).
  exists o, s1. split; [|done].
  unfold classifyDelete, ret.
  destruct o as [e|]; [|done]. by repeat destruct (isAWSErr _ _ _).
Qed.

Lemma nextWait_min (wait : N) : (500 ≤ nextWait wait)%N.
Proof.
  unfold nextWait.
  destruct (N.ltb_spec (2 * wait) 500); [lia|].
  destruct (N.ltb_spec 10000 (2 * wait)); lia.
Qed.

Lemma retryLoop_unfold (polls : nat) (deadline wait : N)
    (f : Op (option RetryError)) :
  retryLoop polls deadline wait f
  = (rerr <- f ;;
     match rerr with
     | None => ret None
     | Some (NonRetryableError err) => ret (Some err)
     | Some (RetryableError err) =>
         _ <- sleep (nextWait wait) ;;
         t <- now ;;
         if (deadline <=? t)%N then ret (Some err)
         else match polls with
              | O => ret (Some err)
              | S polls' => retryLoop polls' deadline (nextWait wait) f
              end
     end).
Proof. by destruct polls. Qed.

(** A run of the polling loop: the attempts that were retried, then the
    last one, whose classification is the result; a retryable error is
    returned only once the deadline has passed. *)
Lemma retryLoop_spec (c : Call)
    (classify : option error → option RetryError)
    (f : Op (option RetryError)) :
  IsAttempt c classify f →
  ∀ polls deadline wait s r s',
    (deadline < clock s + 500 * (N.of_nat polls + 1))%N →
    retryLoop polls deadline wait f s = (r, s') →
    ∃ retried o,
      events s' = events s ++ retried ++ [mkEvent c o]
      ∧ Forall (λ ev, ev_call ev = c
                      ∧ ∃ e, classify (ev_err ev) = Some (RetryableError e))
               retried
      ∧ (clock s ≤ clock s')%N
      ∧ match classify o with
        | None => r = None
        | Some (NonRetryableError e) => r = Some e
        | Some (RetryableError e) => r = Some e ∧ (deadline ≤ clock s')%N
        end.
Proof.
  intros Hf polls.
  induction polls as [|polls IH]; intros deadline wait s r s' Hinv Hrun;
    rewrite retryLoop_unfold in Hrun; unfold bind at 1 in Hrun;
    destruct (Hf s) as (o & s1 & Hfs & Hev1 & Hck1); rewrite Hfs in Hrun;
    pose proof (nextWait_min wait) as Hw;
    destruct (classify o) as [[e|e]|] eqn:Hc;
    unfold bind, sleep, now, ret in Hrun; simpl in Hrun.
  - destruct (N.leb_spec deadline (clock s1 + nextWait wait)); [|lia].
    injection Hrun as <- <-. exists [], o. simpl.
    rewrite Hc. split_and!; [done|constructor|lia|done|lia].
  - injection Hrun as <- <-. exists [], o. rewrite Hc. done.
  - injection Hrun as <- <-. exists [], o. rewrite Hc. done.
  - destruct (N.leb_spec deadline (clock s1 + nextWait wait)).
    + injection Hrun as <- <-. exists [], o. simpl.
      rewrite Hc. split_and!; [done|constructor|lia|done|lia].
    + apply IH in Hrun as (retried & o' & Hev & Hre & Hck & Hres);
        [|simpl; lia].
      simpl in Hev, Hck.
      exists (mkEvent c o :: retried), o'. split_and!.
      * rewrite Hev, Hev1, <- !app_assoc. done.
      * constructor; [|done]. simpl. eauto.
      * lia.
      * done.
  - injection Hrun as <- <-. exists [], o. rewrite Hc. done.
  - injection Hrun as <- <-. exists [], o. rewrite Hc. done.
Qed.

Lemma Retry_spec (c : Call) (classify : option error → option RetryError)
    (f : Op (option RetryError)) (timeout : N) :
  IsAttempt c classify f →
  ∀ s r s',
    Retry timeout f s = (r, s') →
    ∃ retried o,
      events s' = events s ++ retried ++ [mkEvent c o]
      ∧ Forall (λ ev, ev_call ev = c
                      ∧ ∃ e, classify (ev_err ev) = Some (RetryableError e))
               retried
      ∧ (clock s ≤ clock s')%N
      ∧ match classify o with
        | None => r = None
        | Some (NonRetryableError e) => r = Some e
        | Some (RetryableError e) =>
            r = Some e ∧ (clock s + timeout ≤ clock s')%N
        end.
Proof.
  intros Hf s r s' Hrun. unfold Retry, bind, now in Hrun.
  eapply retryLoop_spec; [exact Hf| |exact Hrun].
  rewrite N2Nat.id.
  pose proof (N.Div0.div_mod timeout 500).
  pose proof (N.mod_lt timeout 500). lia.
Qed.

Lemma classifyReset_retried (o : option error) (e : error) :
  classifyReset o = Some (RetryableError e) →
  o = Some e ∧ pendingChanges e = true.
Proof.
  unfold classifyReset. destruct o as [e0|]; [|done].
  destruct (pendingChanges e0) eqn:Hp; [|done]. by intros [= <-].
Qed.

(** One batch of the removal loop: the reset calls that were retried
    failed with the transient conflict; the result is the error of the
    last reset call; the transient conflict is returned only after the
    thirty seconds. *)
Lemma resetBatch_spec (d : ResourceData) (b : list neptune_Parameter)
    (s : World W) (r : option error) (s' : World W) :
  Retry (30 * time_Second) (resetAttempt d b) s = (r, s') →
  ∃ retried,
    events s' = events s ++ retried ++ [mkEvent (CallReset (d_name d) b) r]
    ∧ Forall (retriedCall (CallReset (d_name d) b) pendingChanges) retried
    ∧ (clock s ≤ clock s')%N
    ∧ (∀ e, r = Some e → pendingChanges e = true →
            (clock s + 30 * time_Second ≤ clock s')%N).
Proof.
  intros Hrun.
  apply (Retry_spec _ _ _ _ (resetAttempt_IsAttempt d b)) in Hrun
    as (retried & o & Hev & Hre & Hck & Hres).
  assert (r = o ∧ (∀ e, r = Some e → pendingChanges e = true →
                        (clock s + 30 * time_Second ≤ clock s')%N))
    as [-> Hbudget].
  { unfold classifyReset in Hres. destruct o as [e|]; [|by subst r].
    destruct (pendingChanges e) eqn:Hp.
    - destruct Hres as [-> Hd]. split; [done|]. intros; done.
    - subst r. split; [done|]. intros e' [= <-] He'. congruence. }
  exists retried. split_and!; [done| |done|done].
  eapply Forall_impl; [exact Hre|].
  intros ev [Hc [e He]]. split; [done|].
  apply classifyReset_retried in He as [He Hp]. eauto.
Qed.

(** *** The two loops *)

Lemma removeLoop_step (fuel : nat) (d : ResourceData)
    (items : list neptune_Parameter) (s : World W) :
  (0 < length items)%nat →
  removeLoop (S fuel) d items s
  = let '(o, s1) := Retry (30 * time_Second)
                          (resetAttempt d (nextBatch items).1) s in
    match o with
    | Some err => (Some (Errorf resetFormat err), s1)
    | None => removeLoop fuel d (nextBatch items).2 s1
    end.
Proof.
  intros H. simpl. destruct (Nat.ltb_spec 0 (length items)); [|lia].
  destruct (nextBatch items) as [b rest]. unfold bind. simpl.
  destruct (Retry _ _ s) as [[e|] s1]; done.
Qed.

Lemma removeLoop_nil (fuel : nat) (d : ResourceData) (s : World W) :
  removeLoop fuel d [] s = (None, s).
Proof. by destruct fuel. Qed.

Lemma nextBatch_last (items : list neptune_Parameter) :
  (length items ≤ maxParams)%nat → nextBatch items = (items, []).
Proof.
  intros H. unfold nextBatch.
  by destruct (Nat.leb_spec (length items) maxParams); [|lia].
Qed.

Lemma nextBatch_more (items : list neptune_Parameter) :
  (maxParams < length items)%nat →
  nextBatch items = (take maxParams items, drop maxParams items).
Proof.
  intros H. unfold nextBatch.
  by destruct (Nat.leb_spec (length items) maxParams); [lia|].
Qed.

(** The removal loop logs a [ResetRun] over the batches of its list. *)
Lemma removeLoop_spec (d : ResourceData) (fuel : nat)
    (items : list neptune_Parameter) :
  (length items ≤ fuel)%nat →
  ∀ s r s',
    removeLoop fuel d items s = (r, s') →
    ∃ evs, events s' = events s ++ evs
           ∧ ResetRun (d_name d) (batchesOf fuel items) evs r.
Proof.
  revert fuel items.
  refine (batches_ind
            (λ fuel items, ∀ s r s',
                 removeLoop fuel d items s = (r, s') →
                 ∃ evs, events s' = events s ++ evs
                        ∧ ResetRun (d_name d) (batchesOf fuel items) evs r)
            _ _ _).
  - intros fuel s r s'. rewrite removeLoop_nil, batchesOf_nil.
    intros [= <- <-]. exists []. rewrite app_nil_r. split; [done|constructor].
  - intros fuel items H s r s'.
    rewrite removeLoop_step, batchesOf_last, nextBatch_last by lia. simpl.
    destruct (Retry _ _ s) as [o s1] eqn:E.
    apply resetBatch_spec in E as (retried & Hev & Hre & _).
    destruct o as [e|].
    + intros [= <- <-]. eexists. split; [exact Hev|]. by constructor.
    + rewrite removeLoop_nil. intros [= <- <-].
      eexists. split; [exact Hev|]. constructor; [done|constructor].
  - intros fuel items H Hl IH s r s'.
    rewrite removeLoop_step, batchesOf_more, nextBatch_more
      by (unfold maxParams in *; lia).
    simpl.
    destruct (Retry _ _ s) as [o s1] eqn:E.
    apply resetBatch_spec in E as (retried & Hev & Hre & _).
    destruct o as [e|].
    + intros [= <- <-]. eexists. split; [exact Hev|]. by constructor.
    + intros Hrun. apply IH in Hrun as (evs & Hev' & Hrr).
      exists (retried ++ mkEvent (CallReset (d_name d) (take maxParams items))
                                 None :: evs).
      split; [|by constructor].
      rewrite Hev', Hev, <- !app_assoc. done.
Qed.

Lemma addLoop_step (fuel : nat) (d : ResourceData)
    (items : list neptune_Parameter) (s : World W) :
  (0 < length items)%nat →
  addLoop (S fuel) d items s
  = let '(o, s1) :=
      remoteCall (CallModify (d_name d) (nextBatch items).1) id
        (ModifyDBParameterGroup conn (d_name d) (nextBatch items).1) s in
    match o with
    | Some err => (Some (Errorf modifyFormat err), s1)
    | None => addLoop fuel d (nextBatch items).2 s1
    end.
Proof.
  intros H. simpl. destruct (Nat.ltb_spec 0 (length items)); [|lia].
  destruct (nextBatch items) as [b rest]. unfold bind. simpl.
  destruct (remoteCall _ _ _ s) as [[e|] s1]; done.
Qed.

Lemma addLoop_nil (fuel : nat) (d : ResourceData) (s : World W) :
  addLoop fuel d [] s = (None, s).
Proof. by destruct fuel. Qed.

(** The addition loop logs a [ModifyRun] over the batches of its list. *)
Lemma addLoop_spec (d : ResourceData) (fuel : nat)
    (items : list neptune_Parameter) :
  (length items ≤ fuel)%nat →
  ∀ s r s',
    addLoop fuel d items s = (r, s') →
    ∃ evs, events s' = events s ++ evs
           ∧ ModifyRun (d_name d) (batchesOf fuel items) evs r.
Proof.
  revert fuel items.
  refine (batches_ind
            (λ fuel items, ∀ s r s',
                 addLoop fuel d items s = (r, s') →
                 ∃ evs, events s' = events s ++ evs
                        ∧ ModifyRun (d_name d) (batchesOf fuel items) evs r)
            _ _ _).
  - intros fuel s r s'. rewrite addLoop_nil, batchesOf_nil.
    intros [= <- <-]. exists []. rewrite app_nil_r. split; [done|constructor].
  - intros fuel items H s r s'.
    rewrite addLoop_step, batchesOf_last, nextBatch_last by lia. simpl.
    destruct (remoteCall _ _ _ s) as [o s1] eqn:E.
    apply remoteCall_spec in E as (Hev & _). simpl in Hev.
    destruct o as [e|].
    + intros [= <- <-]. eexists. split; [exact Hev|]. by constructor.
    + rewrite addLoop_nil. intros [= <- <-].
      eexists. split; [exact Hev|]. constructor. constructor.
  - intros fuel items H Hl IH s r s'.
    rewrite addLoop_step, batchesOf_more, nextBatch_more
      by (unfold maxParams in *; lia).
    simpl.
    destruct (remoteCall _ _ _ s) as [o s1] eqn:E.
    apply remoteCall_spec in E as (Hev & _). simpl in Hev.
    destruct o as [e|].
    + intros [= <- <-]. eexists. split; [exact Hev|]. by constructor.
    + intros Hrun. apply IH in Hrun as (evs & Hev' & Hrr).
      exists (mkEvent (CallModify (d_name d) (take maxParams items)) None
                      :: evs).
      split; [|by constructor].
      rewrite Hev', Hev, <- !app_assoc. done.
Qed.

(** *** What a run of a loop says about its log *)

Lemma ResetRun_isReset (name : string) bs evs r :
  ResetRun name bs evs r → Forall (λ ev, isReset ev = true) evs.
Proof.
  induction 1 as [|b bs retried evs r Hre _ IH|b bs retried e Hre].
  - constructor.
  - apply Forall_app. split.
    + eapply Forall_impl; [exact Hre|]. intros ev [Hc _].
      unfold isReset. by rewrite Hc.
    + by constructor.
  - apply Forall_app. split.
    + eapply Forall_impl; [exact Hre|]. intros ev [Hc _].
      unfold isReset. by rewrite Hc.
    + by repeat constructor.
Qed.

Lemma ModifyRun_isModify (name : string) bs evs r :
  ModifyRun name bs evs r → Forall (λ ev, isModify ev = true) evs.
Proof. induction 1; by repeat constructor. Qed.

Lemma retried_calls (c : Call) (retryable : error → bool)
    (retried : list Event) :
  Forall (retriedCall c retryable) retried →
  ev_call <$> retried = replicate (length retried) c.
Proof.
  induction 1 as [|ev l [Hc _] _ IH]; [done|].
  rewrite fmap_cons, Hc, IH. done.
Qed.

(** The calls of a removal run: the batches in order, each as often as
    it was tried; all of them when the run ends well. *)
Lemma ResetRun_calls (name : string) bs evs r :
  ResetRun name bs evs r →
  ∃ ks, (length ks ≤ length bs)%nat
        ∧ ev_call <$> evs = repeated ks (CallReset name <$> bs)
        ∧ (r = None → length ks = length bs).
Proof.
  induction 1 as [|b bs retried evs r Hre _ (ks & Hlen & Hcalls & Hall)
                  |b bs retried e Hre].
  - exists []. done.
  - exists (length retried :: ks). split_and!.
    + simpl. lia.
    + rewrite fmap_app, !fmap_cons, (retried_calls _ _ _ Hre), Hcalls.
      cbn [repeated ev_call].
      change (replicate (S (length retried)) (CallReset name b))
        with (CallReset name b
                :: replicate (length retried) (CallReset name b)).
      by rewrite replicate_cons_app, <- app_assoc.
    + intros Hr. simpl. by rewrite Hall.
  - exists [length retried]. split_and!.
    + simpl. lia.
    + rewrite fmap_app, !fmap_cons, (retried_calls _ _ _ Hre).
      cbn [repeated ev_call].
      change (replicate (S (length retried)) (CallReset name b))
        with (CallReset name b
                :: replicate (length retried) (CallReset name b)).
      rewrite replicate_cons_app, <- app_assoc.
      by destruct (CallReset name <$> bs).
    + done.
Qed.

(** The calls of an addition run: the batches in order, one call each,
    up to the one that failed. *)
Lemma ModifyRun_calls (name : string) bs evs r :
  ModifyRun name bs evs r →
  ∃ k, (k ≤ length bs)%nat
       ∧ ev_call <$> evs = CallModify name <$> take k bs
       ∧ (r = None → k = length bs).
Proof.
  induction 1 as [|b bs evs r _ (k & Hlen & Hcalls & Hall)|b bs e].
  - exists 0%nat. done.
  - exists (S k). split_and!.
    + simpl. lia.
    + by rewrite firstn_cons, !fmap_cons, Hcalls.
    + intros Hr. simpl. by rewrite Hall.
  - exists 1%nat. split_and!; [simpl; lia| |done].
    by rewrite firstn_cons, take_0.
Qed.

(** A failed reset in a removal run: it is the last call of the run and
    its error is the result, or it failed with the transient conflict
    and the next call is the same reset. *)
Lemma ResetRun_failure (name : string) bs evs r :
  ResetRun name bs evs r →
  ∀ i ev e,
    evs !! i = Some ev → ev_err ev = Some e →
    (evs !! S i = None ∧ r = Some (Errorf resetFormat e))
    ∨ (pendingChanges e = true
       ∧ ∃ ev', evs !! S i = Some ev' ∧ ev_call ev' = ev_call ev).
Proof.
  assert (∀ b retried (tl : list Event) last i ev e,
             Forall (retriedCall (CallReset name b) pendingChanges) retried →
             ev_call last = CallReset name b →
             (retried ++ last :: tl) !! i = Some ev →
             ev_err ev = Some e →
             (i < length retried)%nat →
             pendingChanges e = true
             ∧ ∃ ev', (retried ++ last :: tl) !! S i = Some ev'
                      ∧ ev_call ev' = ev_call ev) as Hretried.
  { intros b retried tl last i ev e Hre Hlast Hi He Hlt.
    rewrite lookup_app_l in Hi by done.
    rewrite Forall_lookup in Hre.
    destruct (Hre i ev Hi) as [Hc (e' & He' & Hp)].
    rewrite He in He'. injection He' as <-. split; [done|].
    destruct (decide (S i < length retried)%nat) as [Hlt'|Hge].
    - destruct (lookup_lt_is_Some_2 retried (S i) Hlt') as [ev' Hev'].
      exists ev'. rewrite lookup_app_l by done. split; [done|].
      destruct (Hre (S i) ev' Hev') as [Hc' _]. congruence.
    - exists last. split; [|congruence].
      rewrite lookup_app_r by lia.
      replace (S i - length retried)%nat with 0%nat by lia. done. }
  induction 1 as [|b bs retried evs r Hre _ IH|b bs retried e0 Hre];
    intros i ev e Hi He.
  - done.
  - destruct (decide (i < length retried)%nat) as [Hlt|Hge].
    + right. eapply Hretried; eauto.
    + rewrite lookup_app_r in Hi by lia.
      destruct (i - length retried)%nat as [|j] eqn:Hj.
      * simpl in Hi. injection Hi as <-. done.
      * simpl in Hi.
        replace (S i) with (length retried + S (S j))%nat by lia.
        rewrite lookup_app_r by lia.
        replace (length retried + S (S j) - length retried)%nat
          with (S (S j)) by lia.
        simpl. apply (IH j ev e Hi He).
  - destruct (decide (i < length retried)%nat) as [Hlt|Hge].
    + right. eapply Hretried; eauto.
    + rewrite lookup_app_r in Hi by lia.
      destruct (i - length retried)%nat as [|j] eqn:Hj; [|done].
      simpl in Hi. injection Hi as <-. simpl in He. injection He as <-.
      left. split; [|done].
      apply lookup_ge_None. rewrite length_app. simpl. lia.
Qed.

(** A failed modify in an addition run is the last call of the run and
    its error is the result. *)
Lemma ModifyRun_failure (name : string) bs evs r :
  ModifyRun name bs evs r →
  ∀ i ev e,
    evs !! i = Some ev → ev_err ev = Some e →
    evs !! S i = None ∧ r = Some (Errorf modifyFormat e).
Proof.
  induction 1 as [|b bs evs r _ IH|b bs e0]; intros i ev e Hi He.
  - done.
  - destruct i as [|i]; simpl in Hi.
    + injection Hi as <-. done.
    + apply (IH i ev e Hi He).
  - destruct i as [|i]; simpl in Hi; [|done].
    injection Hi as <-. simpl in He. injection He as <-. done.
Qed.

(** A run that ends in an error ends with the call that failed. *)
Lemma ResetRun_error_last (name : string) bs evs err :
  ResetRun name bs evs (Some err) →
  ∃ pre b e, evs = pre ++ [mkEvent (CallReset name b) (Some e)]
             ∧ err = Errorf resetFormat e.
Proof.
  remember (Some err) as r eqn:Hr.
  induction 1 as [|b bs retried evs r _ _ IH|b bs retried e Hre].
  - done.
  - destruct (IH Hr) as (pre & b' & e & Hevs & Herr). subst evs.
    exists (retried ++ mkEvent (CallReset name b) None :: pre), b', e.
    split; [by rewrite <- app_assoc|done].
  - injection Hr as <-. eauto.
Qed.

Lemma ModifyRun_error_last (name : string) bs evs err :
  ModifyRun name bs evs (Some err) →
  ∃ pre b e, evs = pre ++ [mkEvent (CallModify name b) (Some e)]
             ∧ err = Errorf modifyFormat e.
Proof.
  remember (Some err) as r eqn:Hr.
  induction 1 as [|b bs evs r _ IH|b bs e].
  - done.
  - destruct (IH Hr) as (pre & b' & e & Hevs & Herr). subst evs.
    by exists (mkEvent (CallModify name b) None :: pre), b', e.
  - injection Hr as <-. by exists [], b, e.
Qed.

(** *** Read and update as a whole *)

(** A read logs the describe call of the group and at most the describe
    call of its parameters; when it fails the id is kept. *)
Lemma Read_spec (d : ResourceData) (s : World W)
    (d' : ResourceData) (r : option error) (s' : World W) :
  resourceAwsNeptuneParameterGroupRead d s = (d', r, s') →
  ∃ o D,
    events s' = events s ++ mkEvent (CallDescribeGroups (Id d)) o :: D
    ∧ Forall (λ ev, isDescribe ev = true) D
    ∧ (is_Some r → Id d' = Id d).
Proof.
  unfold resourceAwsNeptuneParameterGroupRead, bind.
  destruct (remoteCall _ _ _ s) as [resp s1] eqn:E1.
  apply remoteCall_spec in E1 as (Hev1 & _ & _).
  destruct resp as [groups|err].
  - destruct groups as [|g [|g' groups]].
    + intros [= <- <- <-]. eauto.
    + destruct (negb _).
      * intros [= <- <- <-]. eauto.
      * destruct (remoteCall _ _ _ s1) as [[pages perr] s2] eqn:E2.
        apply remoteCall_spec in E2 as (Hev2 & _ & _).
        assert (events s2
                = events s ++ mkEvent (CallDescribeGroups (Id d)) None
                    :: [mkEvent (CallDescribeParameters (Id d) "user") perr])
          as Hev.
        { rewrite Hev2, Hev1, <- app_assoc. done. }
        destruct perr as [err|].
        -- intros [= <- <- <-]. eexists _, _.
           split_and!; [exact Hev|by repeat constructor|done].
        -- simpl. intros [= <- <- <-]. eexists _, _.
           split_and!; [exact Hev|by repeat constructor|by intros [? ?]].
    + intros [= <- <- <-]. eauto.
  - destruct (isAWSErr _ _ _).
    + intros [= <- <- <-]. eexists _, _.
      split_and!; [exact Hev1|done|by intros [? ?]].
    + intros [= <- <- <-]. eauto.
Qed.

Lemma parameterChanges_total (d : ResourceData) :
  ∃ toRemove toAdd, parameterChanges d = inl (toRemove, toAdd).
Proof. unfold parameterChanges. simpl. eauto. Qed.

(** The body of [if d.HasChange("parameter")]: nothing without a change;
    with a change, the log of the two loops over the two lists. *)
Lemma updateParameters_spec (d : ResourceData) (s : World W)
    (d' : ResourceData) (r : option error) (s' : World W) :
  updateParameters d s = (d', r, s') →
  (HasChange_parameter d = false ∧ d' = d ∧ r = None ∧ s' = s)
  ∨ (HasChange_parameter d = true
     ∧ Id d' = Id d
     ∧ ∃ toRemove toAdd R M,
         parameterChanges d = inl (toRemove, toAdd)
         ∧ events s' = events s ++ R ++ M
         ∧ PipelineRun (d_name d) toRemove toAdd R M r).
Proof.
  unfold updateParameters.
  destruct (HasChange_parameter d); [|intros [= <- <- <-]; by left].
  destruct (parameterChanges_total d) as (toRemove & toAdd & Hpc).
  rewrite Hpc. unfold bind.
  destruct (removeLoop _ d toRemove s) as [r1 s1] eqn:E1.
  apply removeLoop_spec in E1 as (R & HevR & HR); [|done].
  intros Hrun. right. split; [done|].
  destruct r1 as [e|].
  - injection Hrun as <- <- <-. split; [done|].
    exists toRemove, toAdd, R, []. rewrite app_nil_r.
    split_and!; [done|done|]. left. eauto.
  - destruct (addLoop _ d toAdd s1) as [r2 s2] eqn:E2.
    apply addLoop_spec in E2 as (M & HevM & HM); [|done].
    assert (events s2 = events s ++ R ++ M) as Hev
      by (by rewrite HevM, HevR, <- app_assoc).
    assert (PipelineRun (d_name d) toRemove toAdd R M r2) as Hpipe
      by (by right).
    destruct r2 as [e|]; injection Hrun as <- <- <-.
    + split; [done|]. exists toRemove, toAdd, R, M. done.
    + split; [by unfold SetPartial; destruct (partial d)|].
      exists toRemove, toAdd, R, M. done.
Qed.

Lemma PipelineRun_kinds (name : string) toRemove toAdd R M r :
  PipelineRun name toRemove toAdd R M r →
  Forall (λ ev, isReset ev = true) R ∧ Forall (λ ev, isModify ev = true) M.
Proof.
  intros [(e & HR & -> & _)|[HR HM]].
  - split; [by eapply ResetRun_isReset|constructor].
  - split; [by eapply ResetRun_isReset|by eapply ModifyRun_isModify].
Qed.

(** An update logs the resets, then the modifies, then the describes of
    the read; there is a read exactly when the two loops end well. *)
Lemma Update_spec (d : ResourceData) (s : World W)
    (d' : ResourceData) (r : option error) (s' : World W) :
  resourceAwsNeptuneParameterGroupUpdate d s = (d', r, s') →
  ∃ R M D rp,
    events s' = events s ++ R ++ M ++ D
    ∧ (HasChange_parameter d = false → R = [] ∧ M = [] ∧ rp = None)
    ∧ (HasChange_parameter d = true →
       ∃ toRemove toAdd,
         parameterChanges d = inl (toRemove, toAdd)
         ∧ PipelineRun (d_name d) toRemove toAdd R M rp)
    ∧ match rp with
      | Some e => D = [] ∧ r = Some e
      | None => ∃ o D', D = mkEvent (CallDescribeGroups (Id d)) o :: D'
                        ∧ Forall (λ ev, isDescribe ev = true) D'
      end
    ∧ (is_Some r → Id d' = Id d).
Proof.
  unfold resourceAwsNeptuneParameterGroupUpdate, bind.
  destruct (updateParameters (Partial true d) s) as [[d1 r1] s1] eqn:E1.
  apply updateParameters_spec in E1
    as [(Hch & -> & -> & ->)
       |(Hch & Hid & toRemove & toAdd & R & M & Hpc & Hev & Hpipe)].
  - intros Hread. apply Read_spec in Hread as (o & D & Hev & HD & Hid).
    exists [], [], (mkEvent (CallDescribeGroups (Id d)) o :: D), None.
    split_and!; [done|done| |eauto|done].
    intros Hch'. change (HasChange_parameter (Partial true d))
                   with (HasChange_parameter d) in Hch. congruence.
  - change (HasChange_parameter (Partial true d))
      with (HasChange_parameter d) in Hch.
    change (parameterChanges (Partial true d))
      with (parameterChanges d) in Hpc.
    change (d_name (Partial true d)) with (d_name d) in Hpipe.
    change (Id (Partial true d)) with (Id d) in Hid.
    destruct r1 as [e|].
    + intros [= <- <- <-]. exists R, M, [], (Some e). rewrite app_nil_r.
      split_and!; [done|congruence|eauto|done|done|done].
    + intros Hread. apply Read_spec in Hread as (o & D & Hev' & HD & Hid').
      change (Id (Partial false d1)) with (Id d1) in *.
      rewrite Hid in *.
      exists R, M, (mkEvent (CallDescribeGroups (Id d)) o :: D), None.
      split_and!; [|congruence|eauto|eauto|done].
      rewrite Hev', Hev, <- !app_assoc. done.
Qed.

(** *** Batching *)

(** C2: the batches of a list concatenate to the list; each has between
    1 and 20 elements; there are ceil(n/20) of them; all but the last
    have 20; the empty list has none and then neither loop issues a
    call.  The addition loop issues one modify call per batch, in order,
    all of them unless a call fails; the removal loop issues the reset
    calls of the batches in order (each as often as it is retried), all
    of them unless a reset is given up. *)
Theorem batches_partition (items : list neptune_Parameter) :
  concat (batches items) = items
  ∧ Forall (λ b, 1 ≤ length b ≤ 20)%nat (batches items)
  ∧ length (batches items) = ((length items + 19) / 20)%nat
  ∧ (∀ i b, batches items !! i = Some b →
            (S i < length (batches items))%nat → length b = 20%nat)
  ∧ batches [] = []
  ∧ (∀ fuel d s, removeLoop fuel d [] s = (None, s)
                 ∧ addLoop fuel d [] s = (None, s))
  ∧ (∀ d s,
        let out := addLoop (length items) d items s in
        ∃ evs k,
          events out.2 = events s ++ evs
          ∧ (k ≤ length (batches items))%nat
          ∧ ev_call <$> evs = CallModify (d_name d) <$> take k (batches items)
          ∧ (out.1 = None → k = length (batches items)))
  ∧ (∀ d s,
        let out := removeLoop (length items) d items s in
        ∃ evs ks,
          events out.2 = events s ++ evs
          ∧ (length ks ≤ length (batches items))%nat
          ∧ ev_call <$> evs
            = repeated ks (CallReset (d_name d) <$> batches items)
          ∧ (out.1 = None → length ks = length (batches items))).
Proof.
  unfold batches. split_and!.
  - by apply batchesOf_concat.
  - by apply batchesOf_sizes.
  - by apply batchesOf_count.
  - by apply batchesOf_full.
  - done.
  - intros fuel d s. by rewrite removeLoop_nil, addLoop_nil.
  - intros d s. destruct (addLoop _ d items s) as [r s'] eqn:E.
    apply addLoop_spec in E as (evs & Hev & Hrun); [|done].
    apply ModifyRun_calls in Hrun as (k & Hk & Hcalls & Hall).
    exists evs, k. done.
  - intros d s. destruct (removeLoop _ d items s) as [r s'] eqn:E.
    apply removeLoop_spec in E as (evs & Hev & Hrun); [|done].
    apply ResetRun_calls in Hrun as (ks & Hk & Hcalls & Hall).
    exists evs, ks. done.
Qed.

(** *** Order of the calls *)

Lemma kinds_exclusive (ev : Event) :
  (isReset ev = true → isModify ev = false ∧ isDescribe ev = false)
  ∧ (isModify ev = true → isReset ev = false ∧ isDescribe ev = false)
  ∧ (isDescribe ev = true → isReset ev = false ∧ isModify ev = false).
Proof. unfold isReset, isModify, isDescribe. by destruct (ev_call ev). Qed.

(** C3: the calls an update issues are reset calls, then modify calls,
    then the describe calls of the read, in this order: no reset call
    comes after a modify call.  When a modify call is issued at all, the
    removal loop has run to its end: every batch of [toRemove] has been
    reset, in order, each until its reset succeeded. *)
Theorem resets_before_modifies (d : ResourceData) (s : World W) :
  let s' := (resourceAwsNeptuneParameterGroupUpdate d s).2 in
  ∃ R M D,
    events s' = events s ++ R ++ M ++ D
    ∧ Forall (λ ev, isReset ev = true) R
    ∧ Forall (λ ev, isModify ev = true) M
    ∧ Forall (λ ev, isDescribe ev = true) D
    ∧ (∀ i j evi evj,
          (R ++ M ++ D) !! i = Some evi → (R ++ M ++ D) !! j = Some evj →
          isModify evi = true → isReset evj = true → (j < i)%nat)
    ∧ (M ≠ [] →
       ∃ toRemove toAdd ks,
         parameterChanges d = inl (toRemove, toAdd)
         ∧ ResetRun (d_name d) (batches toRemove) R None
         ∧ length ks = length (batches toRemove)
         ∧ ev_call <$> R
           = repeated ks (CallReset (d_name d) <$> batches toRemove)).
Proof.
  intros s'. subst s'.
  destruct (resourceAwsNeptuneParameterGroupUpdate d s)
    as [[d' r] s'] eqn:E.
  apply Update_spec in E as (R & M & D & rp & Hev & Hno & Hyes & Hrp & _).
  assert (Forall (λ ev, isReset ev = true) R
          ∧ Forall (λ ev, isModify ev = true) M) as [HR HM].
  { destruct (HasChange_parameter d).
    - destruct Hyes as (? & ? & _ & Hpipe); [done|].
      by eapply PipelineRun_kinds.
    - destruct Hno as (-> & -> & _); done. }
  assert (Forall (λ ev, isDescribe ev = true) D) as HD.
  { destruct rp as [e|].
    - destruct Hrp as [-> _]. constructor.
    - destruct Hrp as (o & D' & -> & HD'). by constructor. }
  exists R, M, D. simpl. split_and!; [done|done|done|done| |].
  - intros i j evi evj Hi Hj Hmi Hrj.
    rewrite Forall_lookup in HR, HM, HD.
    assert (j < length R)%nat.
    { destruct (decide (j < length R)%nat); [done|]. exfalso.
      rewrite lookup_app_r in Hj by lia.
      apply lookup_app_Some in Hj as [Hj|[_ Hj]].
      - apply HM in Hj. apply kinds_exclusive in Hj as [? _]. congruence.
      - apply HD in Hj. apply kinds_exclusive in Hj as [? _]. congruence. }
    assert (length R ≤ i)%nat; [|lia].
    destruct (decide (length R ≤ i)%nat); [done|]. exfalso.
    rewrite lookup_app_l in Hi by lia.
    apply HR in Hi. apply kinds_exclusive in Hi as [? _]. congruence.
  - intros HMne. destruct (HasChange_parameter d).
    + destruct Hyes as (toRemove & toAdd & Hpc & Hpipe); [done|].
      destruct Hpipe as [(e & _ & -> & _)|[HRun _]]; [done|].
      destruct (ResetRun_calls _ _ _ _ HRun) as (ks & _ & Hcalls & Hall).
      exists toRemove, toAdd, ks. split_and!; auto.
    + by destruct Hno as (_ & -> & _).
Qed.

(** *** Timed runs of the retried calls *)

Lemma resetAttempt_attempt (d : ResourceData) (b : list neptune_Parameter)
    (s : World W) :
  ∃ o s1,
    resetAttempt d b s = (classifyReset o, s1)
    ∧ attemptFrom (CallReset (d_name d) b)
                  (ResetDBParameterGroup conn (d_name d) b) s o s1.
Proof.
  unfold resetAttempt, bind, remoteCall, attemptFrom.
  destruct (ResetDBParameterGroup conn (d_name d) b (remote s))
    as [o w'] eqn:E.
  exists o. eexists. split; [|eauto].
  unfold classifyReset, pendingChanges, ret.
  destruct o as [e|]; [|done]. by destruct (isAWSErr _ _ _).
Qed.

Lemma deleteAttempt_attempt (d : ResourceData) (s : World W) :
  ∃ o s1,
    deleteAttempt d s = (classifyDelete o, s1)
    ∧ attemptFrom (CallDelete (Id d))
                  (DeleteDBParameterGroup conn (Id d)) s o s1.
Proof.
  unfold deleteAttempt, bind, remoteCall, attemptFrom.
  destruct (DeleteDBParameterGroup conn (Id d) (remote s)) as [o w'] eqn:E.
  exists o. eexists. split; [|eauto].
  unfold classifyDelete, ret.
  destruct o as [e|]; [|done]. by repeat destruct (isAWSErr _ _ _).
Qed.

Lemma attemptFrom_clock (c : Call) (run : W → option error * W)
    (s : World W) (o : option error) (s1 : World W) :
  attemptFrom c run s o s1 → (clock s ≤ clock s1)%N.
Proof. intros (w' & _ & ->). simpl. lia. Qed.

(** With polls enough to reach the deadline, the polling loop is a
    [RetryRun]: it never stops for want of polls. *)
Lemma retryLoop_run (c : Call) (run : W → option error * W)
    (classify : option error → option RetryError)
    (f : Op (option RetryError)) :
  (∀ s, ∃ o s1, f s = (classify o, s1) ∧ attemptFrom c run s o s1) →
  ∀ polls deadline wait s r s',
    (deadline < clock s + 500 * (N.of_nat polls + 1))%N →
    retryLoop polls deadline wait f s = (r, s') →
    RetryRun c run classify deadline wait s r s'.
Proof.
  intros Hf polls.
  induction polls as [|polls IH]; intros deadline wait s r s' Hinv Hrun;
    rewrite retryLoop_unfold in Hrun; unfold bind at 1 in Hrun;
    destruct (Hf s) as (o & s1 & Hfs & Hatt); rewrite Hfs in Hrun;
    pose proof (attemptFrom_clock _ _ _ _ _ Hatt) as Hck1;
    pose proof (nextWait_min wait) as Hw;
    destruct (classify o) as [[e|e]|] eqn:Hc;
    unfold bind, sleep, now, ret in Hrun; simpl in Hrun.
  - destruct (N.leb_spec deadline (clock s1 + nextWait wait)); [|lia].
    injection Hrun as <- <-. by eapply RetryRun_expired.
  - injection Hrun as <- <-. by eapply RetryRun_fatal.
  - injection Hrun as <- <-. by eapply RetryRun_success.
  - destruct (N.leb_spec deadline (clock s1 + nextWait wait)).
    + injection Hrun as <- <-. by eapply RetryRun_expired.
    + eapply RetryRun_again; [exact Hatt|exact Hc|done|].
      apply IH; [simpl; lia|exact Hrun].
  - injection Hrun as <- <-. by eapply RetryRun_fatal.
  - injection Hrun as <- <-. by eapply RetryRun_success.
Qed.

Lemma Retry_run (c : Call) (run : W → option error * W)
    (classify : option error → option RetryError)
    (f : Op (option RetryError)) (timeout : N) :
  (∀ s, ∃ o s1, f s = (classify o, s1) ∧ attemptFrom c run s o s1) →
  ∀ s r s',
    Retry timeout f s = (r, s') →
    RetryRun c run classify (clock s + timeout) 0 s r s'.
Proof.
  intros Hf s r s' Hrun. unfold Retry, bind, now in Hrun.
  eapply retryLoop_run; [exact Hf| |exact Hrun].
  rewrite N2Nat.id.
  pose proof (N.Div0.div_mod timeout 500).
  pose proof (N.mod_lt timeout 500). lia.
Qed.

(** A run issues at least one call, the attempt it starts with. *)
Lemma RetryRun_first (c : Call) (run : W → option error * W)
    (classify : option error → option RetryError) (deadline wait : N)
    (s : World W) (r : option error) (s' : World W) :
  RetryRun c run classify deadline wait s r s' →
  ∃ o evs, events s' = events s ++ mkEvent c o :: evs
           ∧ o = (run (remote s)).1.
Proof.
  induction 1 as [wait s o s1 (w' & Hrun & ->) _
                 |wait s o s1 e (w' & Hrun & ->) _
                 |wait s o s1 e (w' & Hrun & ->) _ _
                 |wait s o s1 e r s' (w' & Hrun & ->) _ _ _
                    (o2 & evs & Hev & _)]; simpl.
  - exists o, []. by rewrite Hrun.
  - exists o, []. by rewrite Hrun.
  - exists o, []. by rewrite Hrun.
  - exists o, (mkEvent c o2 :: evs). simpl in Hev.
    rewrite Hev, <- app_assoc, Hrun. done.
Qed.

(** When the first attempt of a run fails with a retryable error and the
    wait after it ends before the deadline, the call is issued again,
    from the remote state the first attempt left. *)
Lemma RetryRun_second (c : Call) (run : W → option error * W)
    (classify : option error → option RetryError) (deadline wait : N)
    (s : World W) (r : option error) (s' : World W)
    (o : option error) (w' : W) (e : error) :
  RetryRun c run classify deadline wait s r s' →
  run (remote s) = (o, w') →
  classify o = Some (RetryableError e) →
  (clock s + latency conn w' + nextWait wait < deadline)%N →
  ∃ evs, events s'
         = events s ++ mkEvent c o :: mkEvent c (run w').1 :: evs.
Proof.
  intros Hrun Hresp Hc Hlt.
  inversion Hrun as [? ? o1 s1 (w1 & Hr1 & Hs1) Hc1
                    |? ? o1 s1 e1 (w1 & Hr1 & Hs1) Hc1
                    |? ? o1 s1 e1 (w1 & Hr1 & Hs1) Hc1 Hexp
                    |? ? o1 s1 e1 ? ? (w1 & Hr1 & Hs1) Hc1 Hlt1 Hrest];
    subst; rewrite Hresp in Hr1; injection Hr1 as <- <-.
  - congruence.
  - congruence.
  - simpl in Hexp. lia.
  - apply RetryRun_first in Hrest as (o2 & evs & Hev & Ho2).
    simpl in Hev, Ho2. exists evs. rewrite Hev, <- app_assoc, Ho2. done.
Qed.

(** The removal loop is a [RemovalRun] over the batches of its list. *)
Lemma removeLoop_run (d : ResourceData) (fuel : nat)
    (items : list neptune_Parameter) :
  (length items ≤ fuel)%nat →
  ∀ s r s',
    removeLoop fuel d items s = (r, s') →
    RemovalRun (d_name d) (batchesOf fuel items) s r s'.
Proof.
  revert fuel items.
  refine (batches_ind
            (λ fuel items, ∀ s r s',
                 removeLoop fuel d items s = (r, s') →
                 RemovalRun (d_name d) (batchesOf fuel items) s r s')
            _ _ _).
  - intros fuel s r s'. rewrite removeLoop_nil, batchesOf_nil.
    intros [= <- <-]. constructor.
  - intros fuel items H s r s'.
    rewrite removeLoop_step, batchesOf_last, nextBatch_last by lia. simpl.
    destruct (Retry _ _ s) as [o s1] eqn:E.
    apply (Retry_run _ _ _ _ _ (resetAttempt_attempt d items)) in E.
    destruct o as [e|].
    + intros [= <- <-]. by apply RemovalRun_abort.
    + rewrite removeLoop_nil. intros [= <- <-].
      eapply RemovalRun_batch; [exact E|constructor].
  - intros fuel items H Hl IH s r s'.
    rewrite removeLoop_step, batchesOf_more, nextBatch_more
      by (unfold maxParams in *; lia).
    simpl.
    destruct (Retry _ _ s) as [o s1] eqn:E.
    apply (Retry_run _ _ _ _ _
             (resetAttempt_attempt d (take maxParams items))) in E.
    destruct o as [e|].
    + intros [= <- <-]. by apply RemovalRun_abort.
    + intros Hrun. eapply RemovalRun_batch; [exact E|by apply IH].
Qed.

(** A removal run over at least one batch starts with the run of the
    reset of its first batch. *)
Lemma RemovalRun_head (name : string) (b : list neptune_Parameter)
    (bs : list (list neptune_Parameter)) (s : World W) (r : option error)
    (s' : World W) :
  RemovalRun name (b :: bs) s r s' →
  ∃ r0 s0, ResetBatchRun name b s r0 s0.
Proof.
  intros H.
  inversion H as [|b' bs' s0 s1 r' s2 Hb Hrest|b' bs' s0 e s1 Hb];
    by eexists _, _.
Qed.

(** The removal loop as the first part of an update with a change. *)
Lemma Update_removal (d : ResourceData) (s : World W)
    (toRemove toAdd : list neptune_Parameter) :
  HasChange_parameter d = true →
  parameterChanges d = inl (toRemove, toAdd) →
  ∃ r1 s1,
    RemovalRun (d_name d) (batches toRemove) s r1 s1
    ∧ match r1 with
      | Some e =>
          resourceAwsNeptuneParameterGroupUpdate d s
          = (Partial true d, Some e, s1)
      | None =>
          ∃ evs,
            events (resourceAwsNeptuneParameterGroupUpdate d s).2
            = events s1 ++ evs
            ∧ Forall (λ ev, isReset ev = false) evs
      end.
Proof.
  intros Hch Hpc.
  destruct (removeLoop (length toRemove) (Partial true d) toRemove s)
    as [r1 s1] eqn:E1.
  pose proof (removeLoop_run _ _ _ (le_n _) _ _ _ E1) as Hrun.
  change (d_name (Partial true d)) with (d_name d) in Hrun.
  exists r1, s1. split; [exact Hrun|].
  assert (updateParameters (Partial true d) s
          = match r1 with
            | Some e => (Partial true d, Some e, s1)
            | None =>
                match addLoop (length toAdd) (Partial true d) toAdd s1 with
                | (Some e, s2) => (Partial true d, Some e, s2)
                | (None, s2) =>
                    (SetPartial "parameter" (Partial true d), None, s2)
                end
            end) as HU.
  { unfold updateParameters.
    change (HasChange_parameter (Partial true d))
      with (HasChange_parameter d).
    change (parameterChanges (Partial true d)) with (parameterChanges d).
    rewrite Hch, Hpc. unfold bind. rewrite E1.
    destruct r1 as [e|]; [done|].
    by destruct (addLoop _ _ toAdd s1) as [[e|] s2]. }
  unfold resourceAwsNeptuneParameterGroupUpdate, bind. rewrite HU.
  destruct r1 as [e|]; [done|].
  destruct (addLoop (length toAdd) (Partial true d) toAdd s1)
    as [r2 s2] eqn:E2.
  apply addLoop_spec in E2 as (M & HevM & HM); [|done].
  apply ModifyRun_isModify in HM.
  assert (Forall (λ ev, isReset ev = false) M) as HMr.
  { eapply Forall_impl; [exact HM|]. intros ev Hk.
    by apply kinds_exclusive in Hk as [? _]. }
  destruct r2 as [e|]; [by exists M|].
  destruct (resourceAwsNeptuneParameterGroupRead _ s2)
    as [[d' r] s'] eqn:ER.
  apply Read_spec in ER as (o & D & Hev & HD & _). simpl.
  exists (M ++ mkEvent
                 (CallDescribeGroups
                    (Id (Partial false
                           (SetPartial "parameter" (Partial true d))))) o
            :: D).
  split; [by rewrite Hev, HevM, <- app_assoc|].
  apply Forall_app. split; [done|].
  constructor; [done|].
  eapply Forall_impl; [exact HD|]. intros ev Hk.
  by apply kinds_exclusive in Hk as [? _].
Qed.

(** The log only grows along a removal run. *)
Lemma RemovalRun_events (name : string) (bs : list (list neptune_Parameter))
    (s : World W) (r : option error) (s' : World W) :
  RemovalRun name bs s r s' → ∃ evs, events s' = events s ++ evs.
Proof.
  induction 1 as [s|b bs s s1 r s' Hb _ (evs & Hev)|b bs s e s1 Hb].
  - exists []. by rewrite app_nil_r.
  - apply RetryRun_first in Hb as (o & evs1 & Hev1 & _).
    exists ((mkEvent (CallReset name b) o :: evs1) ++ evs).
    by rewrite Hev, Hev1, <- app_assoc.
  - apply RetryRun_first in Hb as (o & evs1 & Hev1 & _). eauto.
Qed.

(** In an update, a first reset that fails with the transient conflict
    and leaves time for the shortest wait is issued again. *)
Lemma Update_second_reset (d : ResourceData) (s : World W)
    (toRemove toAdd b : list neptune_Parameter)
    (bs : list (list neptune_Parameter)) (e : error) (w' : W) :
  HasChange_parameter d = true →
  parameterChanges d = inl (toRemove, toAdd) →
  batches toRemove = b :: bs →
  ResetDBParameterGroup conn (d_name d) b (remote s) = (Some e, w') →
  pendingChanges e = true →
  (latency conn w' + 500 < 30 * time_Second)%N →
  ∃ evs,
    events (resourceAwsNeptuneParameterGroupUpdate d s).2
    = events s
        ++ mkEvent (CallReset (d_name d) b) (Some e)
        :: mkEvent (CallReset (d_name d) b)
                   (ResetDBParameterGroup conn (d_name d) b w').1
        :: evs.
Proof.
  intros Hch Hpc Hbs Hresp Hp Hlt.
  destruct (Update_removal d s toRemove toAdd Hch Hpc)
    as (r1 & s1 & Hrun & Hrest).
  rewrite Hbs in Hrun.
  assert (∃ evs,
            events s1
            = events s
                ++ mkEvent (CallReset (d_name d) b) (Some e)
                :: mkEvent (CallReset (d_name d) b)
                           (ResetDBParameterGroup conn (d_name d) b w').1
                :: evs) as (evs1 & Hev1).
  { assert (classifyReset (Some e) = Some (RetryableError e)) as Hc
      by (unfold classifyReset; by rewrite Hp).
    assert (clock s + latency conn w' + nextWait 0
            < clock s + 30 * time_Second)%N as Hdl
      by (change (nextWait 0) with 500%N; lia).
    inversion Hrun as [|b' bs' s0 s2 r' s3 Hb Htail|b' bs' s0 e' s2 Hb];
      subst.
    - destruct (RetryRun_second _ _ _ _ _ _ _ _ _ _ _ Hb Hresp Hc Hdl)
        as (evs & Hev).
      apply RemovalRun_events in Htail as (evs' & Hev').
      exists (evs ++ evs'). rewrite Hev', Hev, <- app_assoc. done.
    - exact (RetryRun_second _ _ _ _ _ _ _ _ _ _ _ Hb Hresp Hc Hdl). }
  destruct r1 as [e1|].
  - rewrite Hrest. simpl. eauto.
  - destruct Hrest as (evs & Hev & _).
    exists (evs1 ++ evs). rewrite Hev, Hev1, <- app_assoc. done.
Qed.

(** *** Retry policy of the update *)

(** C5: for one removal batch, the reset calls that are retried are
    those that failed with the transient conflict; the result is the
    error of the last reset call, and when that error is the transient
    conflict at least 30 seconds have passed.  In an update, a modify
    call that fails is the last call and its error is returned; a reset
    call that fails is either the last call, its error returned, or it
    failed with the transient conflict and the next call is the same
    reset again.  So a reset failure of any other kind, and every modify
    failure, ends the update at once: no further batch, no read.
    Moreover the removal loop of an update with a change is a
    [RemovalRun] over the batches of [toRemove]: every batch is reset
    under a deadline of 30 seconds from its first attempt; each reset
    that fails with the transient conflict is followed by a wait between
    500 ms and 10 s and, when that wait ends before the deadline, by
    another reset of the batch; it is given up, and the update returns
    the error in partial mode, only when the wait ends at or after the
    deadline.  In particular a first reset that fails with the transient
    conflict in less than 29.5 seconds is issued a second time: the log
    of the update starts with that reset, twice. *)
Theorem reset_retried_modify_not (d : ResourceData) (s : World W) :
  (∀ b,
      let '(r, s') := Retry (30 * time_Second) (resetAttempt d b) s in
      ∃ retried,
        events s'
        = events s ++ retried ++ [mkEvent (CallReset (d_name d) b) r]
        ∧ Forall (retriedCall (CallReset (d_name d) b) pendingChanges)
                 retried
        ∧ (∀ e, r = Some e → pendingChanges e = true →
                (clock s + 30 * time_Second ≤ clock s')%N))
  ∧ (let '(_, r, s') := resourceAwsNeptuneParameterGroupUpdate d s in
     ∃ evs,
       events s' = events s ++ evs
       ∧ ∀ i ev e,
           evs !! i = Some ev → ev_err ev = Some e →
           (isModify ev = true →
            evs !! S i = None ∧ r = Some (Errorf modifyFormat e))
           ∧ (isReset ev = true →
              (evs !! S i = None ∧ r = Some (Errorf resetFormat e))
              ∨ (pendingChanges e = true
                 ∧ ∃ ev', evs !! S i = Some ev'
                          ∧ ev_call ev' = ev_call ev)))
  ∧ (∀ toRemove toAdd,
        HasChange_parameter d = true →
        parameterChanges d = inl (toRemove, toAdd) →
        ∃ r1 s1,
          RemovalRun (d_name d) (batches toRemove) s r1 s1
          ∧ match r1 with
            | Some e =>
                resourceAwsNeptuneParameterGroupUpdate d s
                = (Partial true d, Some e, s1)
            | None =>
                ∃ evs,
                  events (resourceAwsNeptuneParameterGroupUpdate d s).2
                  = events s1 ++ evs
                  ∧ Forall (λ ev, isReset ev = false) evs
            end)
  ∧ (∀ b r s' e w',
        ResetBatchRun (d_name d) b s r s' →
        ResetDBParameterGroup conn (d_name d) b (remote s) = (Some e, w') →
        pendingChanges e = true →
        (latency conn w' + 500 < 30 * time_Second)%N →
        ∃ evs,
          events s'
          = events s
              ++ mkEvent (CallReset (d_name d) b) (Some e)
              :: mkEvent (CallReset (d_name d) b)
                         (ResetDBParameterGroup conn (d_name d) b w').1
              :: evs)
  ∧ (∀ toRemove toAdd b bs e w',
        HasChange_parameter d = true →
        parameterChanges d = inl (toRemove, toAdd) →
        batches toRemove = b :: bs →
        ResetDBParameterGroup conn (d_name d) b (remote s) = (Some e, w') →
        pendingChanges e = true →
        (latency conn w' + 500 < 30 * time_Second)%N →
        ∃ evs,
          events (resourceAwsNeptuneParameterGroupUpdate d s).2
          = events s
              ++ mkEvent (CallReset (d_name d) b) (Some e)
              :: mkEvent (CallReset (d_name d) b)
                         (ResetDBParameterGroup conn (d_name d) b w').1
              :: evs).
Proof.
  split; [|split; [|split; [|split]]].
  - intros b. destruct (Retry _ _ s) as [r s'] eqn:E.
    apply resetBatch_spec in E as (retried & Hev & Hre & _ & Hbudget).
    exists retried. done.
  - destruct (resourceAwsNeptuneParameterGroupUpdate d s)
      as [[d' r] s'] eqn:E.
    apply Update_spec in E as (R & M & D & rp & Hev & Hno & Hyes & Hrp & _).
    exists (R ++ M ++ D). split; [done|].
    intros i ev e Hi He.
    assert (Forall (λ ev, isDescribe ev = true) D) as HD.
    { destruct rp as [e0|].
      - destruct Hrp as [-> _]. constructor.
      - destruct Hrp as (o & D' & -> & HD'). by constructor. }
    rewrite Forall_lookup in HD.
    destruct (HasChange_parameter d).
    + destruct Hyes as (toRemove & toAdd & Hpc & Hpipe); [done|].
      destruct (PipelineRun_kinds _ _ _ _ _ _ Hpipe) as [HR HM].
      rewrite Forall_lookup in HR, HM.
      apply lookup_app_Some in Hi as [Hi|[HiR Hi]].
      * (* a reset call *)
        pose proof (HR _ _ Hi) as Hk.
        apply kinds_exclusive in Hk as [Hk _].
        split; [congruence|]. intros _.
        destruct Hpipe as [(e0 & HRun & -> & ->)|[HRun HMrun]].
        -- destruct Hrp as [-> ->]. rewrite !app_nil_r.
           destruct (ResetRun_failure _ _ _ _ HRun i ev e Hi He)
             as [[Hlast [= ->]]|Hretry]; [by left|by right].
        -- destruct (ResetRun_failure _ _ _ _ HRun i ev e Hi He)
             as [[_ ?]|(Hp & ev' & Hev' & Hc)]; [done|].
           right. split; [done|]. exists ev'. split; [|done].
           by apply lookup_app_l_Some.
      * apply lookup_app_Some in Hi as [Hi|[HiM Hi]].
        -- (* a modify call *)
           pose proof (HM _ _ Hi) as Hk.
           apply kinds_exclusive in Hk as [Hk _].
           split; [|congruence]. intros _.
           destruct Hpipe as [(e0 & _ & -> & _)|[_ HMrun]]; [done|].
           destruct (ModifyRun_failure _ _ _ _ HMrun _ ev e Hi He)
             as [Hlast ->].
           destruct Hrp as [-> ->]. rewrite app_nil_r. split; [|done].
           apply lookup_ge_None. apply lookup_ge_None in Hlast.
           rewrite length_app. lia.
        -- (* a describe call *)
           apply HD in Hi. apply kinds_exclusive in Hi as [? ?].
           split; congruence.
    + destruct Hno as (-> & -> & _); [done|]. simpl in Hi.
      apply HD in Hi. apply kinds_exclusive in Hi as [? ?].
      split; congruence.
  - intros toRemove toAdd Hch Hpc. by apply (Update_removal d s toRemove toAdd).
  - intros b r s' e w' Hrun Hresp Hp Hlt.
    eapply (RetryRun_second _ _ _ _ _ _ _ _ _ _ _ Hrun Hresp).
    + unfold classifyReset. by rewrite Hp.
    + change (nextWait 0) with 500%N. lia.
  - intros toRemove toAdd b bs e w'.
    apply (Update_second_reset d s toRemove toAdd b bs e w').
Qed.

(** *** Read after the update *)


(** *** Delete *)

Lemma classifyDelete_retried (o : option error) (e : error) :
  classifyDelete o = Some (RetryableError e) →
  o = Some e ∧ (negb (notFound e) && invalidState e) = true.
Proof.
  unfold classifyDelete, notFound, invalidState.
  destruct o as [e0|]; [|done].
  destruct (isAWSErr e0 neptune.ErrCodeDBParameterGroupNotFoundFault "")
    eqn:Hnf; [done|].
  destruct (isAWSErr e0 neptune.ErrCodeInvalidDBParameterGroupStateFault "")
    eqn:His; [|intros [=]].
  intros [= <-]. by rewrite Hnf, His.
Qed.

(** A run of the delete: the retried calls, the last call, the result. *)
Lemma Delete_spec (d : ResourceData) (s : World W)
    (r : option error) (s' : World W) :
  resourceAwsNeptuneParameterGroupDelete d s = (r, s') →
  ∃ retried o,
    events s' = events s ++ retried ++ [mkEvent (CallDelete (Id d)) o]
    ∧ Forall (retriedCall (CallDelete (Id d))
                          (λ e, negb (notFound e) && invalidState e))
             retried
    ∧ match o with
      | None => r = None
      | Some e =>
          if notFound e then r = None
          else r = Some e
               ∧ (invalidState e = true → (clock s + 180000 ≤ clock s')%N)
      end.
Proof.
  intros E. unfold resourceAwsNeptuneParameterGroupDelete in E.
  apply (Retry_spec _ _ _ _ (deleteAttempt_IsAttempt d)) in E
    as (retried & o & Hev & Hre & _ & Hres).
  exists retried, o. split_and!; [done| |].
  - eapply Forall_impl; [exact Hre|].
    intros ev [Hc [e He]]. split; [done|].
    apply classifyDelete_retried in He as [He Hp]. eauto.
  - unfold classifyDelete in Hres. destruct o as [e|]; [|done].
    fold (notFound e) in Hres. fold (invalidState e) in Hres.
    destruct (notFound e); [done|].
    destruct (invalidState e).
    + destruct Hres as [-> Hck]. split; [done|]. intros _. exact Hck.
    + split; [done|]. intros [=].
Qed.

(** A delete is a [DeleteRun]. *)
Lemma Delete_run (d : ResourceData) (s : World W)
    (r : option error) (s' : World W) :
  resourceAwsNeptuneParameterGroupDelete d s = (r, s') →
  DeleteRun d s r s'.
Proof.
  intros E. unfold resourceAwsNeptuneParameterGroupDelete in E.
  by apply (Retry_run _ _ _ _ _ (deleteAttempt_attempt d)) in E.
Qed.

(** C7: a delete issues delete calls on the group id; those that are
    retried failed with the invalid-state error (and not with not
    found); the delete ends with the first call of another outcome, or
    with an invalid-state error once 3 minutes have passed.  Its result
    is success when the last call succeeded or reported not found, and
    the error of the last call otherwise.  Moreover the delete is a
    [DeleteRun]: under a deadline of 3 minutes from its start, each
    delete call that fails with the invalid-state error is followed by a
    wait between 500 ms and 10 s and, when that wait ends before the
    deadline, by another delete call; the delete gives up, returning that
    error, only when the wait ends at or after the deadline.  In
    particular a first call that fails with the invalid-state error in
    less than 179.5 seconds is followed by a second call. *)
Theorem delete_policy (d : ResourceData) (s : World W) :
  let '(r, s') := resourceAwsNeptuneParameterGroupDelete d s in
  (∃ retried o,
      events s' = events s ++ retried ++ [mkEvent (CallDelete (Id d)) o]
      ∧ Forall (retriedCall (CallDelete (Id d))
                            (λ e, negb (notFound e) && invalidState e))
               retried
      ∧ match o with
        | None => r = None
        | Some e =>
            if notFound e then r = None
            else r = Some e
                 ∧ (invalidState e = true →
                    (clock s + 3 * time_Minute ≤ clock s')%N)
        end)
  ∧ DeleteRun d s r s'
  ∧ (∀ e w',
        DeleteDBParameterGroup conn (Id d) (remote s) = (Some e, w') →
        notFound e = false →
        invalidState e = true →
        (latency conn w' + 500 < 3 * time_Minute)%N →
        ∃ evs,
          events s'
          = events s
              ++ mkEvent (CallDelete (Id d)) (Some e)
              :: mkEvent (CallDelete (Id d))
                         (DeleteDBParameterGroup conn (Id d) w').1
              :: evs).
Proof.
  destruct (resourceAwsNeptuneParameterGroupDelete d s) as [r s'] eqn:E.
  pose proof (Delete_run _ _ _ _ E) as Hrun.
  split; [by apply Delete_spec|]. split; [exact Hrun|].
  intros e w' Hresp Hnf His Hlt.
  eapply (RetryRun_second _ _ _ _ _ _ _ _ _ _ _ Hrun Hresp).
  - unfold classifyDelete. fold (notFound e). fold (invalidState e).
    by rewrite Hnf, His.
  - change (nextWait 0) with 500%N. lia.
Qed.

(** *** Not found *)

(** C8 (as amended): a not-found error is absorbed by the describe call
    of the group in a read and by the delete, and not by the later call
    for the parameter pages.  When the describe call of a read fails with
    not found, the read clears the id and returns no error, after that
    one call.  When the first delete call fails with not found, the
    delete returns no error, after that one call; on any attempt, a
    delete call that fails with not found is the last call and the delete
    returns no error; a delete never returns a not-found error.  When the
    group is described but the parameter pages end in an error - a
    not-found error included - the read returns that error and keeps the
    id.  These are all the errors of a read: the "Unable to find" error
    it builds, the error of the describe call when that is not a
    not-found error, and the error of the parameter pages; the id is
    kept in each case. *)
Theorem not_found_absorbed (d : ResourceData) (s : World W) :
  (∀ err w',
      DescribeDBParameterGroups conn (Id d) (remote s) = (inr err, w') →
      notFound err = true →
      ∃ s',
        resourceAwsNeptuneParameterGroupRead d s = (SetId "" d, None, s')
        ∧ Id (SetId "" d) = ""
        ∧ events s'
          = events s ++ [mkEvent (CallDescribeGroups (Id d)) (Some err)])
  ∧ (∀ err w',
        DeleteDBParameterGroup conn (Id d) (remote s) = (Some err, w') →
        notFound err = true →
        ∃ s',
          resourceAwsNeptuneParameterGroupDelete d s = (None, s')
          ∧ events s'
            = events s ++ [mkEvent (CallDelete (Id d)) (Some err)])
  ∧ (∀ e s',
        resourceAwsNeptuneParameterGroupDelete d s = (Some e, s') →
        notFound e = false)
  ∧ (let '(r, s') := resourceAwsNeptuneParameterGroupDelete d s in
     ∃ evs,
       events s' = events s ++ evs
       ∧ ∀ i ev e,
           evs !! i = Some ev → ev_err ev = Some e → notFound e = true →
           evs !! S i = None ∧ r = None)
  ∧ (∀ g w1 pages err w2,
        DescribeDBParameterGroups conn (Id d) (remote s) = (inl [g], w1) →
        DBParameterGroupName g = Id d →
        DescribeDBParametersPages conn (Id d) "user" w1
        = ((pages, Some err), w2) →
        ∃ d' s',
          resourceAwsNeptuneParameterGroupRead d s = (d', Some err, s')
          ∧ Id d' = Id d
          ∧ events s'
            = events s ++ [mkEvent (CallDescribeGroups (Id d)) None;
                           mkEvent (CallDescribeParameters (Id d) "user")
                                   (Some err)])
  ∧ (∀ d' e s',
        resourceAwsNeptuneParameterGroupRead d s = (d', Some e, s') →
        Id d' = Id d
        ∧ ((∃ groups,
              e = ErrorfGroups "Unable to find Parameter Group: %#v" groups
              ∧ events s'
                = events s ++ [mkEvent (CallDescribeGroups (Id d)) None])
           ∨ (notFound e = false
              ∧ events s'
                = events s ++ [mkEvent (CallDescribeGroups (Id d)) (Some e)])
           ∨ events s'
             = events s ++ [mkEvent (CallDescribeGroups (Id d)) None;
                            mkEvent (CallDescribeParameters (Id d) "user")
                                    (Some e)])).
Proof.
  split_and!.
  - intros err w' Hresp Hnf.
    unfold resourceAwsNeptuneParameterGroupRead, bind, remoteCall.
    rewrite Hresp. unfold notFound in Hnf. rewrite Hnf.
    eexists. split_and!; reflexivity.
  - intros err w' Hresp Hnf.
    unfold resourceAwsNeptuneParameterGroupDelete, Retry, bind, now.
    rewrite retryLoop_unfold.
    unfold bind, deleteAttempt, bind, remoteCall. simpl.
    rewrite Hresp. unfold notFound in Hnf. rewrite Hnf.
    eexists. split; reflexivity.
  - intros e s' Hrun.
    apply Delete_spec in Hrun as (retried & o & _ & _ & Hres).
    destruct o as [e0|]; [|done].
    destruct (notFound e0) eqn:Hnf; [done|].
    destruct Hres as [[= ->] _]. done.
  - destruct (resourceAwsNeptuneParameterGroupDelete d s) as [r s'] eqn:E.
    apply Delete_spec in E as (retried & o & Hev & Hre & Hres).
    exists (retried ++ [mkEvent (CallDelete (Id d)) o]). split; [done|].
    intros i ev e Hi He Hnf.
    destruct (decide (i < length retried)%nat) as [Hlt|Hge].
    + rewrite lookup_app_l in Hi by done.
      rewrite Forall_lookup in Hre.
      destruct (Hre i ev Hi) as (_ & e' & He' & Hp).
      rewrite He in He'. injection He' as <-.
      rewrite Hnf in Hp. done.
    + rewrite lookup_app_r in Hi by lia.
      destruct (i - length retried)%nat as [|j] eqn:Hj; [|done].
      simpl in Hi. injection Hi as <-. simpl in He. subst o.
      rewrite Hnf in Hres. split; [|done].
      apply lookup_ge_None. rewrite length_app. simpl. lia.
  - intros g w1 pages err w2 Hresp Hname Hpages.
    unfold resourceAwsNeptuneParameterGroupRead, bind, remoteCall.
    rewrite Hresp. simpl. rewrite Hname, String.eqb_refl. simpl.
    rewrite Hpages. simpl.
    eexists _, _. split; [reflexivity|]. simpl.
    rewrite <- app_assoc. split; reflexivity.
  - intros d' e s'.
    unfold resourceAwsNeptuneParameterGroupRead, bind, remoteCall.
    destruct (DescribeDBParameterGroups conn (Id d) (remote s))
      as [[groups|err] w1].
    + destruct groups as [|g [|g' groups]]; simpl.
      * intros [= <- <- <-]. split; [done|]. left. eauto.
      * destruct (negb _).
        -- intros [= <- <- <-]. split; [done|]. left. eauto.
        -- simpl.
           destruct (DescribeDBParametersPages conn (Id d) "user" w1)
             as [[pages [perr|]] w2]; simpl; [|done].
           intros [= <- <- <-]. split; [done|]. right. right.
           simpl. by rewrite <- app_assoc.
      * intros [= <- <- <-]. split; [done|]. left. eauto.
    + simpl. destruct (isAWSErr err _ _) eqn:Hnf; [done|].
      intros [= <- <- <-]. split; [done|]. right. left. done.
Qed.

(** *** No change *)

Lemma only_describes_are_not_mutations (ev : Event) :
  isDescribe ev = true → isReset ev = false ∧ isModify ev = false.
Proof. apply kinds_exclusive. Qed.

(** C9: when the old and the new value of [parameter] are equal,
    [HasChange] is false; and whenever it is false, the update is the
    read of the group, and every call it issues is a describe call: no
    reset and no modify. *)
Theorem unchanged_parameter_only_reads (d : ResourceData) (s : World W) :
  (parameter_old d = parameter_new d → HasChange_parameter d = false)
  ∧ (HasChange_parameter d = false →
     resourceAwsNeptuneParameterGroupUpdate d s
     = resourceAwsNeptuneParameterGroupRead (Partial false (Partial true d)) s
     ∧ ∃ evs,
         events (resourceAwsNeptuneParameterGroupUpdate d s).2
         = events s ++ evs
         ∧ Forall (λ ev, isDescribe ev = true
                         ∧ isReset ev = false ∧ isModify ev = false) evs).
Proof.
  split.
  - intros Heq. unfold HasChange_parameter. rewrite Heq.
    destruct (parameter_new d) as [n|]; [|done].
    unfold Set_Equal. by rewrite bool_decide_eq_true_2.
  - intros Hch.
    assert (resourceAwsNeptuneParameterGroupUpdate d s
            = resourceAwsNeptuneParameterGroupRead
                (Partial false (Partial true d)) s) as HU.
    { unfold resourceAwsNeptuneParameterGroupUpdate, bind, updateParameters.
      change (HasChange_parameter (Partial true d))
        with (HasChange_parameter d).
      by rewrite Hch. }
    split; [done|]. rewrite HU.
    destruct (resourceAwsNeptuneParameterGroupRead _ s)
      as [[d' r] s'] eqn:E.
    apply Read_spec in E as (o & D & Hev & HD & _).
    eexists. split; [exact Hev|].
    constructor.
    + split; [done|]. by apply only_describes_are_not_mutations.
    + eapply Forall_impl; [exact HD|]. intros ev Hk.
      split; [done|]. by apply only_describes_are_not_mutations.
Qed.

(** *** Create *)

(** C10: when the create call fails, the create returns an error and
    leaves [d] as it was, id included, after that one call; when it
    succeeds with a group name, the id is set to that name before the
    update runs, and whenever the create then returns an error the id is
    still that name. *)
Theorem create_sets_id_before_update (d : ResourceData) (s : World W) :
  let createOpts :=
    mkCreateInput (d_name d) (d_family d) (d_description d) in
  (∀ err w',
      CreateDBParameterGroup conn createOpts (remote s) = (inr err, w') →
      ∃ s',
        resourceAwsNeptuneParameterGroupCreate d s
        = (d, Some (Errorf "Error creating Neptune Parameter Group: %s" err),
           s')
        ∧ events s'
          = events s ++ [mkEvent (CallCreate createOpts) (Some err)])
  ∧ (∀ groupName w',
        CreateDBParameterGroup conn createOpts (remote s)
        = (inl groupName, w') →
        ∃ d1 s1,
          Id d1 = groupName
          ∧ events s1 = events s ++ [mkEvent (CallCreate createOpts) None]
          ∧ resourceAwsNeptuneParameterGroupCreate d s
            = resourceAwsNeptuneParameterGroupUpdate d1 s1
          ∧ ∀ d' e s',
              resourceAwsNeptuneParameterGroupCreate d s = (d', Some e, s') →
              Id d' = groupName).
Proof.
  intros createOpts. split.
  - intros err w' Hresp.
    unfold resourceAwsNeptuneParameterGroupCreate, bind, remoteCall.
    fold createOpts. rewrite Hresp. eexists. split; reflexivity.
  - intros groupName w' Hresp.
    unfold resourceAwsNeptuneParameterGroupCreate, bind, remoteCall.
    fold createOpts. rewrite Hresp.
    exists (SetId groupName
              (Partial false
                 (SetPartial "description"
                    (SetPartial "family"
                       (SetPartial "name" (Partial true d)))))),
           (mkWorld w' (clock s + latency conn w')
                    (events s ++ [mkEvent (CallCreate createOpts) None])).
    split_and!; [reflexivity|reflexivity|reflexivity|].
    intros d' e s' Hrun.
    { apply Update_spec in Hrun as (_ & _ & _ & _ & _ & _ & _ & _ & Hid).
      by rewrite Hid. }
Qed.

(** ** Further properties of the four operations *)

(** *** Read *)

(** The log of a read: the describe call of the group and, when exactly
    the group of the id came back, the describe call of its user
    parameters. *)
Lemma Read_log (d : ResourceData) (s : World W)
    (d' : ResourceData) (r : option error) (s' : World W) :
  resourceAwsNeptuneParameterGroupRead d s = (d', r, s') →
  (∃ o, events s' = events s ++ [mkEvent (CallDescribeGroups (Id d)) o])
  ∨ (∃ o, events s'
          = events s ++ [mkEvent (CallDescribeGroups (Id d)) None;
                         mkEvent (CallDescribeParameters (Id d) "user") o]).
Proof.
  unfold resourceAwsNeptuneParameterGroupRead, bind.
  destruct (remoteCall _ _ _ s) as [resp s1] eqn:E1.
  apply remoteCall_spec in E1 as (Hev1 & _ & _).
  destruct resp as [groups|err].
  - destruct groups as [|g [|g' groups]].
    + intros [= <- <- <-]. left. eauto.
    + destruct (negb _).
      * intros [= <- <- <-]. left. eauto.
      * destruct (remoteCall _ _ _ s1) as [[pages perr] s2] eqn:E2.
        apply remoteCall_spec in E2 as (Hev2 & _ & _).
        assert (events s2
                = events s ++ [mkEvent (CallDescribeGroups (Id d)) None;
                               mkEvent (CallDescribeParameters (Id d) "user")
                                       perr]) as Hev.
        { rewrite Hev2, Hev1, <- app_assoc. done. }
        destruct perr as [err|]; simpl; intros [= <- <- <-]; right; eauto.
    + intros [= <- <- <-]. left. eauto.
  - destruct (isAWSErr _ _ _); intros [= <- <- <-]; left; eauto.
Qed.

(** What a read leaves alone. *)
Lemma Read_keeps (d : ResourceData) (s : World W)
    (d' : ResourceData) (r : option error) (s' : World W) :
  resourceAwsNeptuneParameterGroupRead d s = (d', r, s') →
  parameter_old d' = parameter_old d
  ∧ partial d' = partial d
  ∧ partialMap d' = partialMap d
  ∧ (Id d' = Id d ∨ (d' = SetId "" d ∧ r = None)).
Proof.
  unfold resourceAwsNeptuneParameterGroupRead, bind.
  destruct (remoteCall _ _ _ s) as [resp s1] eqn:E1.
  destruct resp as [groups|err].
  - destruct groups as [|g [|g' groups]].
    + intros [= <- <- <-]. split_and!; auto.
    + destruct (negb _).
      * intros [= <- <- <-]. split_and!; auto.
      * destruct (remoteCall _ _ _ s1) as [[pages perr] s2] eqn:E2.
        destruct perr as [err|]; simpl; intros [= <- <- <-];
          split_and!; auto.
    + intros [= <- <- <-]. split_and!; auto.
  - destruct (isAWSErr _ _ _); intros [= <- <- <-]; split_and!; auto.
Qed.

(** X1: when the describe call answers with anything but exactly one
    group whose name is the id (no group, several groups, another name),
    the read returns the "Unable to find" error after that one call,
    leaves [d] as it was and does not ask for the parameters. *)
Theorem Read_unexpected_groups (d : ResourceData) (s : World W)
    (groups : list DBParameterGroup) (w' : W) :
  DescribeDBParameterGroups conn (Id d) (remote s) = (inl groups, w') →
  (∀ g, groups = [g] → DBParameterGroupName g ≠ Id d) →
  ∃ s',
    resourceAwsNeptuneParameterGroupRead d s
    = (d, Some (ErrorfGroups "Unable to find Parameter Group: %#v" groups), s')
    ∧ events s' = events s ++ [mkEvent (CallDescribeGroups (Id d)) None].
Proof.
  intros Hresp Hbad.
  unfold resourceAwsNeptuneParameterGroupRead, bind, remoteCall.
  rewrite Hresp.
  destruct groups as [|g [|g' groups]].
  - eexists. split; reflexivity.
  - specialize (Hbad g eq_refl). apply String.eqb_neq in Hbad.
    rewrite Hbad. eexists. split; reflexivity.
  - eexists. split; reflexivity.
Qed.

(** X2: when the describe call answers with exactly the group of the id
    and the parameter pages come without error, the read succeeds after
    these two calls (the second for the source "user" only); it stores
    the name, family and description of the group and, as the new
    [parameter] set, the parameters of all pages in page order; the id and
    the old [parameter] value are kept. *)
Theorem Read_success (d : ResourceData) (s : World W)
    (g : DBParameterGroup) (w1 : W)
    (pages : list (list neptune_Parameter)) (w2 : W) :
  DescribeDBParameterGroups conn (Id d) (remote s) = (inl [g], w1) →
  DBParameterGroupName g = Id d →
  DescribeDBParametersPages conn (Id d) "user" w1 = ((pages, None), w2) →
  ∃ d' s',
    resourceAwsNeptuneParameterGroupRead d s = (d', None, s')
    ∧ Id d' = Id d
    ∧ d_name d' = DBParameterGroupName g
    ∧ d_family d' = DBParameterGroupFamily g
    ∧ d_description d' = Description g
    ∧ parameter_new d'
      = Some (NewSet resourceAwsNeptuneParameterHash
                     (flattenNeptuneParameters (concat pages)))
    ∧ parameter_old d' = parameter_old d
    ∧ remote s' = w2
    ∧ events s'
      = events s ++ [mkEvent (CallDescribeGroups (Id d)) None;
                     mkEvent (CallDescribeParameters (Id d) "user") None].
Proof.
  intros Hresp Hname Hpages.
  unfold resourceAwsNeptuneParameterGroupRead, bind, remoteCall.
  rewrite Hresp. simpl. rewrite Hname, String.eqb_refl. simpl.
  rewrite Hpages. simpl.
  eexists _, _. split; [reflexivity|]. simpl.
  rewrite <- app_assoc. split_and!; reflexivity.
Qed.

(** X3: when the group came back but the parameter pages end in an error,
    the read returns that error as it is - also a not-found error, for
    which the id is not cleared - and the pages that did arrive are
    dropped: the [parameter] value is untouched, while name, family and
    description are already written. *)
Theorem Read_parameters_error (d : ResourceData) (s : World W)
    (g : DBParameterGroup) (w1 : W)
    (pages : list (list neptune_Parameter)) (err : error) (w2 : W) :
  DescribeDBParameterGroups conn (Id d) (remote s) = (inl [g], w1) →
  DBParameterGroupName g = Id d →
  DescribeDBParametersPages conn (Id d) "user" w1
  = ((pages, Some err), w2) →
  ∃ d' s',
    resourceAwsNeptuneParameterGroupRead d s = (d', Some err, s')
    ∧ Id d' = Id d
    ∧ parameter_new d' = parameter_new d
    ∧ parameter_old d' = parameter_old d
    ∧ d_name d' = DBParameterGroupName g
    ∧ d_family d' = DBParameterGroupFamily g
    ∧ d_description d' = Description g
    ∧ events s'
      = events s ++ [mkEvent (CallDescribeGroups (Id d)) None;
                     mkEvent (CallDescribeParameters (Id d) "user")
                             (Some err)].
Proof.
  intros Hresp Hname Hpages.
  unfold resourceAwsNeptuneParameterGroupRead, bind, remoteCall.
  rewrite Hresp. simpl. rewrite Hname, String.eqb_refl. simpl.
  rewrite Hpages. simpl.
  eexists _, _. split; [reflexivity|]. simpl.
  rewrite <- app_assoc. split_and!; reflexivity.
Qed.


(** *** Update *)

Lemma Update_unfold (d : ResourceData) (s : World W) :
  resourceAwsNeptuneParameterGroupUpdate d s
  = match updateParameters (Partial true d) s with
    | (d1, Some e, s1) => (d1, Some e, s1)
    | (d1, None, s1) =>
        resourceAwsNeptuneParameterGroupRead (Partial false d1) s1
    end.
Proof.
  unfold resourceAwsNeptuneParameterGroupUpdate, bind.
  by destruct (updateParameters (Partial true d) s) as [[d1 [e|]] s1].
Qed.

(** What the body of [if d.HasChange("parameter")] does to [d]: nothing,
    except for marking [parameter] when both loops ended well. *)
Lemma updateParameters_data (d : ResourceData) (s : World W)
    (d' : ResourceData) (r : option error) (s' : World W) :
  updateParameters d s = (d', r, s') →
  match r with
  | Some _ => d' = d
  | None =>
      d' = if HasChange_parameter d then SetPartial "parameter" d else d
  end.
Proof.
  unfold updateParameters.
  destruct (HasChange_parameter d); [|by intros [= <- <- <-]].
  destruct (parameterChanges_total d) as (toRemove & toAdd & Hpc).
  rewrite Hpc. unfold bind.
  destruct (removeLoop _ d toRemove s) as [[e|] s1];
    [by intros [= <- <- <-]|].
  destruct (addLoop _ d toAdd s1) as [[e|] s2]; by intros [= <- <- <-].
Qed.

Lemma ResetRun_members (name : string) bs evs r :
  ResetRun name bs evs r →
  Forall (λ ev, ∃ b, b ∈ bs ∧ ev_call ev = CallReset name b) evs.
Proof.
  induction 1 as [|b bs retried evs r Hre _ IH|b bs retried e Hre].
  - constructor.
  - apply Forall_app. split.
    + eapply Forall_impl; [exact Hre|]. intros ev [Hc _].
      exists b. split; [apply list_elem_of_here|done].
    + constructor.
      * exists b. split; [apply list_elem_of_here|done].
      * eapply Forall_impl; [exact IH|]. intros ev (b' & Hb' & Hc).
        exists b'. split; [by apply list_elem_of_further|done].
  - apply Forall_app. split.
    + eapply Forall_impl; [exact Hre|]. intros ev [Hc _].
      exists b. split; [apply list_elem_of_here|done].
    + constructor; [|constructor].
      exists b. split; [apply list_elem_of_here|done].
Qed.

Lemma ModifyRun_members (name : string) bs evs r :
  ModifyRun name bs evs r →
  Forall (λ ev, ∃ b, b ∈ bs ∧ ev_call ev = CallModify name b) evs.
Proof.
  induction 1 as [|b bs evs r _ IH|b bs e].
  - constructor.
  - constructor.
    + exists b. split; [apply list_elem_of_here|done].
    + eapply Forall_impl; [exact IH|]. intros ev (b' & Hb' & Hc).
      exists b'. split; [by apply list_elem_of_further|done].
  - constructor; [|constructor].
    exists b. split; [apply list_elem_of_here|done].
Qed.

Lemma applied_app (l1 l2 : list Event) :
  applied (l1 ++ l2) = applied l1 ++ applied l2.
Proof. unfold applied. by rewrite omap_app, concat_app. Qed.

Lemma applied_retried (c : Call) (retryable : error → bool)
    (retried : list Event) :
  Forall (retriedCall c retryable) retried → applied retried = [].
Proof.
  induction 1 as [|ev l (_ & e & He & _) _ IH]; [done|].
  unfold applied in *. simpl. by rewrite He.
Qed.

(** What a removal run has reset: the first batches, all of them when it
    ends well. *)
Lemma ResetRun_applied (name : string) bs evs r :
  ResetRun name bs evs r →
  applied evs `prefix_of` concat bs ∧ (r = None → applied evs = concat bs).
Proof.
  induction 1 as [|b bs retried evs r Hre _ [IHp IHa]|b bs retried e Hre].
  - split; [done|done].
  - rewrite applied_app, (applied_retried _ _ _ Hre). simpl.
    change (applied (mkEvent (CallReset name b) None :: evs))
      with (b ++ applied evs).
    split; [by apply prefix_app|]. intros Hr. by rewrite IHa.
  - rewrite applied_app, (applied_retried _ _ _ Hre). simpl.
    split; [apply prefix_nil|done].
Qed.

Lemma ModifyRun_applied (name : string) bs evs r :
  ModifyRun name bs evs r →
  applied evs `prefix_of` concat bs ∧ (r = None → applied evs = concat bs).
Proof.
  induction 1 as [|b bs evs r _ [IHp IHa]|b bs e].
  - split; [done|done].
  - change (applied (mkEvent (CallModify name b) None :: evs))
      with (b ++ applied evs).
    simpl. split; [by apply prefix_app|]. intros Hr. by rewrite IHa.
  - split; [apply prefix_nil|done].
Qed.

Lemma ResetRun_nil (name : string) evs r :
  ResetRun name [] evs r → evs = [] ∧ r = None.
Proof. by inversion 1. Qed.

Lemma ModifyRun_nil (name : string) evs r :
  ModifyRun name [] evs r → evs = [] ∧ r = None.
Proof. by inversion 1. Qed.

(** X5: an update ends in one of two ways.  Either a batch failed: the
    update returns an error, [d] is as at entry except that partial mode
    is on (so [parameter] is not marked as saved), and no describe call
    was issued.  Or the read was reached: the describe call of the group
    is in the log, partial mode is off and its bookkeeping is cleared. *)
Theorem Update_partial_mode (d : ResourceData) (s : World W) :
  let '(d', r, s') := resourceAwsNeptuneParameterGroupUpdate d s in
  ∃ evs,
    events s' = events s ++ evs
    ∧ ((d' = Partial true d ∧ is_Some r
        ∧ Forall (λ ev, isDescribe ev = false) evs)
       ∨ (partial d' = false ∧ partialMap d' = None
          ∧ ∃ o, mkEvent (CallDescribeGroups (Id d)) o ∈ evs)).
Proof.
  rewrite Update_unfold.
  destruct (updateParameters (Partial true d) s) as [[d1 r1] s1] eqn:E.
  pose proof (updateParameters_data _ _ _ _ _ E) as Hd1.
  assert (Id d1 = Id d
          ∧ ∃ evs0, events s1 = events s ++ evs0
                    ∧ Forall (λ ev, isDescribe ev = false) evs0)
    as (Hid & evs0 & Hev0 & Hnd).
  { apply updateParameters_spec in E
      as [(_ & -> & _ & ->)
         |(_ & Hid & toRemove & toAdd & R & M & _ & Hev & Hpipe)].
    - split; [done|]. exists []. by rewrite app_nil_r.
    - split; [done|]. exists (R ++ M). split; [done|].
      destruct (PipelineRun_kinds _ _ _ _ _ _ Hpipe) as [HR HM].
      apply Forall_app. split.
      + eapply Forall_impl; [exact HR|]. intros ev Hk.
        by apply kinds_exclusive in Hk as [_ ?].
      + eapply Forall_impl; [exact HM|]. intros ev Hk.
        by apply kinds_exclusive in Hk as [_ ?]. }
  destruct r1 as [e|].
  - exists evs0. split; [done|]. left. subst d1. split_and!; [done|eauto|done].
  - destruct (resourceAwsNeptuneParameterGroupRead (Partial false d1) s1)
      as [[d' r] s'] eqn:ER.
    destruct (Read_keeps _ _ _ _ _ ER) as (_ & Hp & Hm & _).
    assert (∃ o D, events s'
                   = events s1 ++ mkEvent (CallDescribeGroups (Id d)) o :: D)
      as (o & D & Hev).
    { change (Id d) with (Id (Partial true d)).
      destruct (Read_log _ _ _ _ _ ER) as [[o Hev]|[o Hev]];
        change (Id (Partial false d1)) with (Id d1) in Hev;
        rewrite Hid in Hev; eauto. }
    exists (evs0 ++ mkEvent (CallDescribeGroups (Id d)) o :: D).
    split; [by rewrite Hev, Hev0, <- app_assoc|].
    right. split_and!; [done|done|].
    exists o. apply elem_of_app. right. apply list_elem_of_here.
Qed.

(** The calls of an update, one by one. *)
Lemma Update_log_calls (d : ResourceData) (s : World W) :
  let s' := (resourceAwsNeptuneParameterGroupUpdate d s).2 in
  ∃ evs, events s' = events s ++ evs ∧ Forall (updateCall d) evs.
Proof.
  simpl. rewrite Update_unfold.
  destruct (updateParameters (Partial true d) s) as [[d1 r1] s1] eqn:E.
  assert (Id d1 = Id d
          ∧ ∃ evs0, events s1 = events s ++ evs0
                    ∧ Forall (updateCall d) evs0)
    as (Hid & evs0 & Hev0 & Hcalls).
  { apply updateParameters_spec in E
      as [(_ & -> & _ & ->)
         |(_ & Hid & toRemove & toAdd & R & M & _ & Hev & Hpipe)].
    - split; [done|]. exists []. by rewrite app_nil_r.
    - split; [done|]. exists (R ++ M). split; [done|].
      change (d_name (Partial true d)) with (d_name d) in Hpipe.
      pose proof (batchesOf_sizes (length toRemove) toRemove (le_n _))
        as HsR.
      pose proof (batchesOf_sizes (length toAdd) toAdd (le_n _)) as HsA.
      rewrite Forall_forall in HsR, HsA.
      assert (Forall (updateCall d) R) as HR.
      { assert (∃ rr, ResetRun (d_name d) (batches toRemove) R rr)
          as [rr Hrr] by (destruct Hpipe as [(e & ? & _)|[? _]]; eauto).
        eapply Forall_impl; [exact (ResetRun_members _ _ _ _ Hrr)|].
        intros ev (b & Hb & Hc). unfold updateCall. rewrite Hc.
        split; [done|]. by apply HsR. }
      assert (Forall (updateCall d) M) as HM.
      { destruct Hpipe as [(e & _ & -> & _)|[_ Hmr]]; [constructor|].
        eapply Forall_impl; [exact (ModifyRun_members _ _ _ _ Hmr)|].
        intros ev (b & Hb & Hc). unfold updateCall. rewrite Hc.
        split; [done|]. by apply HsA. }
      by apply Forall_app. }
  destruct r1 as [e|]; [by exists evs0|].
  destruct (resourceAwsNeptuneParameterGroupRead (Partial false d1) s1)
    as [[d' r] s'] eqn:ER. simpl.
  destruct (Read_log _ _ _ _ _ ER) as [[o Hev]|[o Hev]];
    change (Id (Partial false d1)) with (Id d1) in Hev; rewrite Hid in Hev;
    eexists; (split; [by rewrite Hev, Hev0, <- app_assoc|]);
    apply Forall_app; (split; [done|]); by repeat constructor.
Qed.

(** X6: every call of an update is a reset or a modify of the group named
    by the [name] attribute, with at least one and at most 20 parameters,
    or a describe of the group of the id (of its "user" parameters): an
    update never sends an empty or an oversized batch, and never creates
    or deletes. *)
Theorem Update_calls (d : ResourceData) (s : World W) :
  let s' := (resourceAwsNeptuneParameterGroupUpdate d s).2 in
  ∃ evs, events s' = events s ++ evs ∧ Forall (updateCall d) evs.
Proof. apply Update_log_calls. Qed.

(** X7: in an update with a change, the parameters of the reset calls
    that succeeded are, in order, a prefix of [toRemove], and those of the
    modify calls that succeeded a prefix of [toAdd]; a modify call is only
    issued once all of [toRemove] is reset; and when the two loops end
    without error, exactly [toRemove] has been reset and exactly [toAdd]
    has been sent, each parameter once. *)
Theorem updateParameters_applied (d : ResourceData) (s : World W)
    (d' : ResourceData) (r : option error) (s' : World W)
    (toRemove toAdd : list neptune_Parameter) :
  updateParameters d s = (d', r, s') →
  HasChange_parameter d = true →
  parameterChanges d = inl (toRemove, toAdd) →
  ∃ R M,
    events s' = events s ++ R ++ M
    ∧ Forall (λ ev, isReset ev = true) R
    ∧ Forall (λ ev, isModify ev = true) M
    ∧ applied R `prefix_of` toRemove
    ∧ applied M `prefix_of` toAdd
    ∧ (M ≠ [] → applied R = toRemove)
    ∧ (r = None → applied R = toRemove ∧ applied M = toAdd).
Proof.
  intros E Hch Hpc.
  apply updateParameters_spec in E
    as [(Hch' & _)|(_ & _ & tr & ta & R & M & Hpc' & Hev & Hpipe)];
    [congruence|].
  rewrite Hpc in Hpc'. injection Hpc' as <- <-.
  exists R, M. split; [done|].
  destruct (PipelineRun_kinds _ _ _ _ _ _ Hpipe) as [HR HM].
  split; [done|]. split; [done|].
  pose proof (batchesOf_concat (length toRemove) toRemove (le_n _)) as HcR.
  pose proof (batchesOf_concat (length toAdd) toAdd (le_n _)) as HcA.
  destruct Hpipe as [(e & Hrr & -> & ->)|[Hrr Hmr]].
  - destruct (ResetRun_applied _ _ _ _ Hrr) as [Hp _].
    unfold batches in Hp. rewrite HcR in Hp.
    split_and!; [done|apply prefix_nil|done|done].
  - destruct (ResetRun_applied _ _ _ _ Hrr) as [_ Ha].
    destruct (ModifyRun_applied _ _ _ _ Hmr) as [Hp Hb].
    unfold batches in Ha, Hp, Hb. rewrite HcR in Ha. rewrite HcA in Hp, Hb.
    rewrite Ha by done.
    split_and!; [done|done|done|]. intros Hr. split; [done|by apply Hb].
Qed.

(** X8: when the old and the new [parameter] set have the same keys - as
    after a change of apply method or of the case of a value, which
    [HasChange] does see - both lists are empty, and the update issues
    describe calls only and leaves partial mode. *)
Theorem Update_same_keys (d : ResourceData) (s : World W)
    (os ns : gmap string ParameterItem) :
  parameter_old d = Some os →
  parameter_new d = Some ns →
  dom os = dom ns →
  parameterChanges d = inl ([], [])
  ∧ let '(d', _, s') := resourceAwsNeptuneParameterGroupUpdate d s in
    partial d' = false
    ∧ ∃ evs, events s' = events s ++ evs
             ∧ Forall (λ ev, isDescribe ev = true) evs.
Proof.
  intros Ho Hn Hdom.
  assert (parameterChanges d = inl ([], [])) as Hpc.
  { unfold parameterChanges. rewrite Ho, Hn. simpl.
    rewrite !Set_Difference_covered, Set_List_empty; [done| |];
      intros k Hk; apply elem_of_dom; apply elem_of_dom in Hk;
      by rewrite ?Hdom in *. }
  split; [done|].
  destruct (resourceAwsNeptuneParameterGroupUpdate d s)
    as [[d' r] s'] eqn:E.
  pose proof E as E'. rewrite Update_unfold in E'.
  apply Update_spec in E as (R & M & D & rp & Hev & Hno & Hyes & Hrp & _).
  assert (R = [] ∧ M = [] ∧ rp = None) as (-> & -> & ->).
  { destruct (HasChange_parameter d); [|by apply Hno].
    destruct Hyes as (tr & ta & Hpc' & Hpipe); [done|].
    rewrite Hpc in Hpc'. injection Hpc' as <- <-.
    destruct Hpipe as [(e & Hrr & _)|[Hrr Hmr]].
    - by apply ResetRun_nil in Hrr as [_ ?].
    - apply ResetRun_nil in Hrr as [-> _].
      by apply ModifyRun_nil in Hmr as [-> ->]. }
  destruct Hrp as (o & D' & -> & HD).
  split.
  - destruct (updateParameters (Partial true d) s) as [[d1 r1] s1] eqn:E1.
    pose proof (updateParameters_data _ _ _ _ _ E1) as Hd1.
    destruct r1 as [e|].
    + (* the body cannot fail: its log would end with a failed call *)
      injection E' as <- <- <-.
      apply updateParameters_spec in E1
        as [(_ & _ & ? & _)|(_ & _ & tr & ta & R & M & Hpc' & _ & Hpipe)];
        [done|].
      change (parameterChanges (Partial true d))
        with (parameterChanges d) in Hpc'.
      rewrite Hpc in Hpc'. injection Hpc' as <- <-.
      destruct Hpipe as [(e' & Hrr & _)|[Hrr Hmr]].
      * by apply ResetRun_nil in Hrr as [_ ?].
      * by apply ModifyRun_nil in Hmr as [_ ?].
    + by destruct (Read_keeps _ _ _ _ _ E') as (_ & -> & _).
  - simpl in Hev. eexists. split; [exact Hev|]. by constructor.
Qed.

(** X9: a nil or empty old value means nothing to remove and the whole
    new set to add, and then no reset call is issued; a nil or empty new
    value means the whole old set to remove and nothing to add, and then
    no modify call is issued. *)
Theorem parameterChanges_empty_side (d : ResourceData) (s : World W) :
  (parameter_old d = None ∨ parameter_old d = Some ∅ →
   parameterChanges d
   = inl ([], (expandNeptuneParameters
                 (Set_List (default ∅ (parameter_new d)))).1)
   ∧ ∃ evs, events (updateParameters d s).2 = events s ++ evs
            ∧ Forall (λ ev, isReset ev = false) evs)
  ∧ (parameter_new d = None ∨ parameter_new d = Some ∅ →
     parameterChanges d
     = inl ((expandNeptuneParameters
               (Set_List (default ∅ (parameter_old d)))).1, [])
     ∧ ∃ evs, events (updateParameters d s).2 = events s ++ evs
              ∧ Forall (λ ev, isModify ev = false) evs).
Proof.
  assert (∀ m : gmap string ParameterItem, Set_Difference ∅ m = ∅) as Hl.
  { intros m. apply Set_Difference_covered. intros k [x Hx].
    by rewrite lookup_empty in Hx. }
  assert (∀ m : gmap string ParameterItem, Set_Difference m ∅ = m) as Hr.
  { intros m. unfold Set_Difference. apply map_filter_id.
    intros k x _. apply lookup_empty. }
  destruct (updateParameters d s) as [[d' r] s'] eqn:E. simpl.
  apply updateParameters_spec in E
    as [(_ & _ & _ & ->)|(_ & _ & tr & ta & R & M & Hpc & Hev & Hpipe)].
  - split; intros Hside.
    + split; [|exists []; by rewrite app_nil_r].
      unfold parameterChanges.
      destruct Hside as [-> | ->]; simpl; by rewrite Hl, Hr, Set_List_empty.
    + split; [|exists []; by rewrite app_nil_r].
      unfold parameterChanges.
      destruct Hside as [-> | ->]; simpl; by rewrite Hl, Hr, Set_List_empty.
  - destruct (PipelineRun_kinds _ _ _ _ _ _ Hpipe) as [HR HM].
    split; intros Hside.
    + assert (parameterChanges d
              = inl ([], (expandNeptuneParameters
                            (Set_List (default ∅ (parameter_new d)))).1))
        as Hpc'.
      { unfold parameterChanges.
        destruct Hside as [-> | ->]; simpl;
          by rewrite Hl, Hr, Set_List_empty. }
      split; [done|]. rewrite Hpc in Hpc'. injection Hpc' as -> _.
      assert (R = []) as ->.
      { destruct Hpipe as [(e & Hrr & _)|[Hrr _]];
          by apply ResetRun_nil in Hrr as [? ?]. }
      exists M. split; [done|].
      eapply Forall_impl; [exact HM|]. intros ev Hk.
      by apply kinds_exclusive in Hk as [? _].
    + assert (parameterChanges d
              = inl ((expandNeptuneParameters
                        (Set_List (default ∅ (parameter_old d)))).1, []))
        as Hpc'.
      { unfold parameterChanges.
        destruct Hside as [-> | ->]; simpl;
          by rewrite Hl, Hr, Set_List_empty. }
      split; [done|]. rewrite Hpc in Hpc'. injection Hpc' as _ ->.
      assert (M = []) as ->.
      { destruct Hpipe as [(e & _ & -> & _)|[_ Hmr]]; [done|].
        by apply ModifyRun_nil in Hmr as [? ?]. }
      exists R. rewrite app_nil_r in Hev. split; [done|].
      eapply Forall_impl; [exact HR|]. intros ev Hk.
      by apply kinds_exclusive in Hk as [? _].
Qed.

(** *** More on the diff *)

Lemma Set_Difference_keyed (F : ParameterItem → Z)
    (s other : gmap string ParameterItem) :
  Set_keyed F s → Set_keyed F (Set_Difference s other).
Proof.
  intros Hs k v Hv. apply map_lookup_filter_Some in Hv as [Hv _].
  by apply Hs.
Qed.

(** A keyed set lists every element once. *)
Lemma Set_List_NoDup (F : ParameterItem → Z)
    (s : gmap string ParameterItem) :
  Set_keyed F s → NoDup (Set_List s).
Proof.
  intros Hs. unfold Set_List.
  pose proof (NoDup_Set_listCode s) as Hnd.
  induction Hnd as [|k l Hk _ IH]; [constructor|].
  simpl. destruct (s !! k) as [v|] eqn:Hv; [|done].
  constructor; [|done].
  intros Hin. apply list_elem_of_omap in Hin as (k' & Hk' & Hv').
  rewrite <- (Hs k v Hv), (Hs k' v Hv') in Hk. done.
Qed.

Lemma expand_elem_of (l : list ParameterItem) (p : neptune_Parameter) :
  p ∈ (expandNeptuneParameters l).1 ↔
  mkItem (ParameterName p) (ParameterValue p) (ApplyMethod p) ∈ l.
Proof.
  unfold expandNeptuneParameters. simpl. rewrite list_elem_of_fmap. split.
  - intros ([n v a] & -> & Hx). done.
  - intros Hx. eexists. split; [|exact Hx]. by destruct p.
Qed.

Lemma expand_NoDup (l : list ParameterItem) :
  NoDup l → NoDup (expandNeptuneParameters l).1.
Proof.
  intros Hl. unfold expandNeptuneParameters. simpl.
  apply NoDup_fmap_2_strong; [|done].
  intros [n v a] [n' v' a'] _ _ [= -> -> ->]. done.
Qed.

(** X10: for sets that hold every element under its own key, [toRemove]
    and [toAdd] list no parameter twice and have no parameter in common;
    every parameter of [toRemove] is an element of the old set and none of
    the new one, every parameter of [toAdd] an element of the new set and
    none of the old one. *)
Theorem parameterChanges_disjoint (d : ResourceData)
    (os ns : gmap string ParameterItem)
    (toRemove toAdd : list neptune_Parameter) :
  parameter_old d = Some os →
  parameter_new d = Some ns →
  Set_keyed resourceAwsNeptuneParameterHash os →
  Set_keyed resourceAwsNeptuneParameterHash ns →
  parameterChanges d = inl (toRemove, toAdd) →
  NoDup toRemove
  ∧ NoDup toAdd
  ∧ (∀ p, p ∈ toRemove → p ∉ toAdd)
  ∧ (∀ p, p ∈ toRemove →
          p ∈ (expandNeptuneParameters (Set_List os)).1
          ∧ p ∉ (expandNeptuneParameters (Set_List ns)).1)
  ∧ (∀ p, p ∈ toAdd →
          p ∈ (expandNeptuneParameters (Set_List ns)).1
          ∧ p ∉ (expandNeptuneParameters (Set_List os)).1).
Proof.
  intros Ho Hn Hos Hns Hpc.
  unfold parameterChanges in Hpc. rewrite Ho, Hn in Hpc. simpl in Hpc.
  injection Hpc as <- <-.
  fold (expandNeptuneParameters (Set_List (Set_Difference os ns))).1.
  fold (expandNeptuneParameters (Set_List (Set_Difference ns os))).1.
  assert (∀ (a b : gmap string ParameterItem) p,
             Set_keyed resourceAwsNeptuneParameterHash a →
             Set_keyed resourceAwsNeptuneParameterHash b →
             p ∈ (expandNeptuneParameters (Set_List (Set_Difference a b))).1 →
             p ∈ (expandNeptuneParameters (Set_List a)).1
             ∧ p ∉ (expandNeptuneParameters (Set_List b)).1) as Hside.
  { intros a b p Ha Hb Hp. rewrite !expand_elem_of in *.
    apply elem_of_Set_List in Hp as [k Hk].
    apply map_lookup_filter_Some in Hk as [Hk Hnone]. simpl in Hnone.
    split; [apply elem_of_Set_List; eauto|].
    intros Hin. apply elem_of_Set_List in Hin as [k' Hk'].
    rewrite <- (Ha k _ Hk), (Hb k' _ Hk') in Hnone. congruence. }
  split_and!.
  - by apply expand_NoDup, (Set_List_NoDup _ _ (Set_Difference_keyed _ _ _ Hos)).
  - by apply expand_NoDup, (Set_List_NoDup _ _ (Set_Difference_keyed _ _ _ Hns)).
  - intros p Hr Ha.
    apply (Hside os ns p Hos Hns) in Hr as [_ Hr].
    apply (Hside ns os p Hns Hos) in Ha as [Ha _]. done.
  - intros p. by apply Hside.
  - intros p. by apply Hside.
Qed.

(** *** The hash input *)

Lemma append_cons (x : ascii) (a s : string) :
  String x a +:+ s = String x (a +:+ s).
Proof. reflexivity. Qed.

Lemma append_nil_l (s : string) : "" +:+ s = s.
Proof. reflexivity. Qed.

Lemma append_dash_inj (a b : string) : a +:+ "-" = b +:+ "-" → a = b.
Proof.
  revert b. induction a as [|c a IH]; intros [|c' b];
    rewrite ?append_cons, ?append_nil_l.
  - done.
  - intros [= <- Hb]. destruct b; by rewrite ?append_cons in Hb.
  - intros [= -> Ha]. destruct a; by rewrite ?append_cons in Ha.
  - intros [= -> Hab]. f_equal. by apply IH.
Qed.

(** Two dash-free first fields followed by a dash split a string in one
    way only. *)
Lemma dash_split_inj (a c b d : string) :
  hasDash a = false → hasDash c = false →
  (a +:+ "-") +:+ b = (c +:+ "-") +:+ d → a = c ∧ b = d.
Proof.
  revert c. induction a as [|x a IH]; intros [|y c];
    rewrite ?append_cons, ?append_nil_l, ?append_cons, ?append_nil_l; simpl.
  - intros _ _ [= Hbd]. done.
  - intros _ Hy [= <- _]. done.
  - intros Hx _ [= -> _]. done.
  - intros Hx Hy [= -> Hrest].
    apply orb_false_iff in Hx as [_ Hx]. apply orb_false_iff in Hy as [_ Hy].
    destruct (IH c Hx Hy Hrest) as [-> ->]. done.
Qed.

Lemma hash_of_input (m : ParameterItem) :
  resourceAwsNeptuneParameterHash m = hashcode_String (hashInput m).
Proof. reflexivity. Qed.

(** X11: the string that is hashed determines the name and the
    lower-cased value of a parameter whose name holds no dash: two such
    parameters are hashed from the same string exactly when they have the
    same name and the same lower-cased value.  Without the condition on
    the names only one direction holds. *)
Theorem hashInput_injective (x y : ParameterItem) :
  (spec_identityOf x = spec_identityOf y → hashInput x = hashInput y)
  ∧ (hasDash (item_name x) = false → hasDash (item_name y) = false →
     hashInput x = hashInput y → spec_identityOf x = spec_identityOf y).
Proof.
  unfold spec_identityOf, hashInput. split.
  - intros [= -> ->]. done.
  - intros Hx Hy Heq.
    apply dash_split_inj in Heq as [-> Hv]; [|done|done].
    apply append_dash_inj in Hv. by rewrite Hv.
Qed.

(** X12: when, among the elements of the old and the new set, two
    elements with the same key always have the same name and lower-cased
    value - no dash ambiguity and no hash collision among them - the diff
    is the diff by name and lower-cased value: [toRemove] is the listing
    of the old set without the elements whose identity an element of the
    new set has, and [toAdd] likewise. *)
Theorem parameterChanges_by_identity (d : ResourceData)
    (os ns : gmap string ParameterItem) :
  parameter_old d = Some os →
  parameter_new d = Some ns →
  Set_keyed resourceAwsNeptuneParameterHash os →
  Set_keyed resourceAwsNeptuneParameterHash ns →
  (∀ x y, x ∈ Set_List os ++ Set_List ns → y ∈ Set_List os ++ Set_List ns →
          parameterKey x = parameterKey y →
          spec_identityOf x = spec_identityOf y) →
  parameterChanges d
  = inl ((expandNeptuneParameters
            (filter (λ x, spec_identityOf x ∉ spec_identityOf <$> Set_List ns)
                    (Set_List os))).1,
         (expandNeptuneParameters
            (filter (λ x, spec_identityOf x ∉ spec_identityOf <$> Set_List os)
                    (Set_List ns))).1).
Proof.
  intros Ho Hn Hos Hns Hsep.
  assert (∀ (a b : gmap string ParameterItem),
             Set_keyed resourceAwsNeptuneParameterHash a →
             Set_keyed resourceAwsNeptuneParameterHash b →
             (∀ x y, x ∈ Set_List a → y ∈ Set_List b →
                     parameterKey x = parameterKey y →
                     spec_identityOf x = spec_identityOf y) →
             Set_List (Set_Difference a b)
             = filter (λ x, spec_identityOf x ∉ spec_identityOf <$> Set_List b)
                      (Set_List a)) as Hside.
  { intros a b Ha Hb Hab.
    rewrite (Set_List_Difference _ a b Ha).
    induction (Set_List a) as [|x l IH]; [done|].
    rewrite !filter_cons.
    assert (b !! Set_hash resourceAwsNeptuneParameterHash x = None
            ↔ spec_identityOf x ∉ spec_identityOf <$> Set_List b) as Hiff.
    { rewrite (Set_keyed_lookup _ b x Hb), !list_elem_of_fmap. split.
      - intros Hk (y & Hxy & Hy). apply Hk. exists y. split; [|done].
        apply sameNameAndFoldedValue_key. unfold spec_identityOf in Hxy.
        injection Hxy as Hname Hvalue. by split.
      - intros Hi (y & Hxy & Hy). apply Hi. exists y. split; [|done].
        apply Hab; [apply list_elem_of_here|done|done]. }
    rewrite IH by (intros x' y Hx' Hy; apply Hab;
                   [by apply list_elem_of_further|done]).
    destruct (decide (b !! _ = None)) as [H1|H1],
             (decide (spec_identityOf x ∉ _)) as [H2|H2];
      try done; by apply Hiff in H1 || apply Hiff in H2. }
  unfold parameterChanges. rewrite Ho, Hn. simpl.
  rewrite (Hside os ns), (Hside ns os); [done|done|done| |done|done|].
  - intros x y Hx Hy Hk. apply Hsep; [| |done]; apply elem_of_app; auto.
  - intros x y Hx Hy Hk. apply Hsep; [| |done]; apply elem_of_app; auto.
Qed.

(** *** Create *)


(** *** How often a call is retried *)

(** The polling loop issues at least one and at most [S polls] calls, and
    waits at least 500 ms before each call but the first. *)
Lemma retryLoop_count (c : Call)
    (classify : option error → option RetryError)
    (f : Op (option RetryError)) :
  IsAttempt c classify f →
  ∀ polls deadline wait s r s',
    retryLoop polls deadline wait f s = (r, s') →
    ∃ evs,
      events s' = events s ++ evs
      ∧ (1 ≤ length evs ≤ S polls)%nat
      ∧ Forall (λ ev, ev_call ev = c) evs
      ∧ (clock s + 500 * N.of_nat (length evs - 1) ≤ clock s')%N.
Proof.
  intros Hf polls.
  induction polls as [|polls IH]; intros deadline wait s r s' Hrun;
    rewrite retryLoop_unfold in Hrun; unfold bind at 1 in Hrun;
    destruct (Hf s) as (o & s1 & Hfs & Hev1 & Hck1); rewrite Hfs in Hrun;
    pose proof (nextWait_min wait) as Hw;
    destruct (classify o) as [[e|e]|] eqn:Hc;
    unfold bind, sleep, now, ret in Hrun; simpl in Hrun.
  - assert (r = Some e
            ∧ s' = mkWorld (remote s1) (clock s1 + nextWait wait) (events s1))
      as [-> ->]
      by (destruct (_ <=? _)%N; by injection Hrun as <- <-).
    exists [mkEvent c o]. simpl.
    split_and!; [done|lia|lia|by repeat constructor|lia].
  - injection Hrun as <- <-. exists [mkEvent c o]. simpl.
    split_and!; [done|lia|lia|by repeat constructor|lia].
  - injection Hrun as <- <-. exists [mkEvent c o]. simpl.
    split_and!; [done|lia|lia|by repeat constructor|lia].
  - destruct (N.leb_spec deadline (clock s1 + nextWait wait)).
    + injection Hrun as <- <-. exists [mkEvent c o]. simpl.
      split_and!; [done|lia|lia|by repeat constructor|lia].
    + apply IH in Hrun as (evs & Hev & Hlen & Hcalls & Hck).
      simpl in Hev, Hck.
      exists (mkEvent c o :: evs). split_and!.
      * rewrite Hev, Hev1, <- app_assoc. done.
      * simpl. lia.
      * simpl. lia.
      * by constructor.
      * simpl length.
        replace (S (length evs) - 1)%nat with (S (length evs - 1)) by lia.
        lia.
  - injection Hrun as <- <-. exists [mkEvent c o]. simpl.
    split_and!; [done|lia|lia|by repeat constructor|lia].
  - injection Hrun as <- <-. exists [mkEvent c o]. simpl.
    split_and!; [done|lia|lia|by repeat constructor|lia].
Qed.

(** X14: a delete issues delete calls on the group of the id and nothing
    else: at least one and at most 361, each but the first after a wait of
    at least half a second. *)
Theorem Delete_calls (d : ResourceData) (s : World W) :
  let '(_, s') := resourceAwsNeptuneParameterGroupDelete d s in
  ∃ evs,
    events s' = events s ++ evs
    ∧ (1 ≤ length evs ≤ 361)%nat
    ∧ Forall (λ ev, ev_call ev = CallDelete (Id d)) evs
    ∧ (clock s + 500 * N.of_nat (length evs - 1) ≤ clock s')%N.
Proof.
  destruct (resourceAwsNeptuneParameterGroupDelete d s) as [r s'] eqn:E.
  unfold resourceAwsNeptuneParameterGroupDelete, Retry, bind, now in E.
  apply (retryLoop_count _ _ _ (deleteAttempt_IsAttempt d)) in E
    as (evs & Hev & Hlen & Hcalls & Hck).
  exists evs. done.
Qed.

(** X15: one batch of the removal loop is reset at least once and at most
    61 times, each time but the first after a wait of at least half a
    second; only reset calls of that batch are issued meanwhile. *)
Theorem reset_attempts (d : ResourceData) (b : list neptune_Parameter)
    (s : World W) :
  let '(_, s') := Retry (30 * time_Second) (resetAttempt d b) s in
  ∃ evs,
    events s' = events s ++ evs
    ∧ (1 ≤ length evs ≤ 61)%nat
    ∧ Forall (λ ev, ev_call ev = CallReset (d_name d) b) evs
    ∧ (clock s + 500 * N.of_nat (length evs - 1) ≤ clock s')%N.
Proof.
  destruct (Retry (30 * time_Second) (resetAttempt d b) s) as [r s'] eqn:E.
  unfold Retry, bind, now in E.
  apply (retryLoop_count _ _ _ (resetAttempt_IsAttempt d b)) in E
    as (evs & Hev & Hlen & Hcalls & Hck).
  exists evs. done.
Qed.

End Resource.

(** ** Runs on concrete inputs

    The resource with ASCII [ToLower], the CRC-32 [hashcode.String] and the
    scripted remote. *)

Local Abbreviation hashOf :=
  (resourceAwsNeptuneParameterHash strings.ToLowerASCII hashcode.String).
Local Abbreviation keyOf := (parameterKey strings.ToLowerASCII hashcode.String).
Local Abbreviation newSet := (NewSet hashOf).
Local Abbreviation runRead :=
  (resourceAwsNeptuneParameterGroupRead
     strings.ToLowerASCII hashcode.String isAWSErr_model scriptedConn).
Local Abbreviation runUpdate :=
  (resourceAwsNeptuneParameterGroupUpdate
     strings.ToLowerASCII hashcode.String isAWSErr_model scriptedConn).
Local Abbreviation runCreate :=
  (resourceAwsNeptuneParameterGroupCreate
     strings.ToLowerASCII hashcode.String isAWSErr_model scriptedConn).
Local Abbreviation runDelete :=
  (resourceAwsNeptuneParameterGroupDelete isAWSErr_model scriptedConn).
Local Abbreviation group olds news :=
  (mkData "grp" "grp" "neptune1" "Managed by Terraform" olds news false None).

Example crc32_check_value : crc32.ChecksumIEEE "123456789" = 0xcbf43926.
Proof. vm_compute. reflexivity. Qed.

(** C1, counterexample: the old parameter (a-b, c) and the new parameter
    (a, b-c) differ in name and in lower-cased value, so by the claim the
    first is to be removed and the second added; both serialise to
    a-b-c-, get the same key, and the diff is empty. *)
Lemma parameterChanges_key_collision :
  let x := mkItem "a-b" "c" "immediate" in
  let y := mkItem "a" "b-c" "immediate" in
  let d := group (Some (newSet [x])) (Some (newSet [y])) in
  Set_List (newSet [x]) = [x]
  ∧ Set_List (newSet [y]) = [y]
  ∧ spec_identityOf strings.ToLowerASCII x
    ≠ spec_identityOf strings.ToLowerASCII y
  ∧ parameterChanges d = inl ([], []).
Proof.
  split_and!; [by vm_compute|by vm_compute| |by vm_compute].
  vm_compute. intros [=].
Qed.

(** C1, witness. *)
Lemma parameterChanges_by_key_witness :
  let os := newSet [mkItem "a" "1" "immediate"; mkItem "b" "2" "immediate"] in
  let ns := newSet [mkItem "a" "1" "immediate"; mkItem "c" "3" "immediate"] in
  let d := group (Some os) (Some ns) in
  (parameter_old d = Some os ∧ parameter_new d = Some ns
   ∧ Set_keyed hashOf os ∧ Set_keyed hashOf ns)
  ∧ (parameterChanges d
     = inl ((expandNeptuneParameters
               (filter (λ x, keyOf x ∉ keyOf <$> Set_List ns)
                       (Set_List os))).1,
            (expandNeptuneParameters
               (filter (λ x, keyOf x ∉ keyOf <$> Set_List os)
                       (Set_List ns))).1)
     ∧ (os = ns → parameterChanges d = inl ([], []))).
Proof.
  intros os ns d.
  assert (Set_keyed hashOf os) as Hos by apply NewSet_keyed.
  assert (Set_keyed hashOf ns) as Hns by apply NewSet_keyed.
  split; [by split_and!|].
  apply (parameterChanges_by_key strings.ToLowerASCII hashcode.String d os ns);
    [reflexivity|reflexivity|exact Hos|exact Hns].
Defined.

Example parameterChanges_example :
  parameterChanges
    (group (Some (newSet [mkItem "a" "1" "immediate";
                          mkItem "b" "2" "immediate"]))
           (Some (newSet [mkItem "a" "1" "immediate";
                          mkItem "c" "3" "immediate"])))
  = inl ([mkParameter "immediate" "b" "2"], [mkParameter "immediate" "c" "3"]).
Proof. by vm_compute. Qed.

(** C4, witness: a value in another case and another apply method. *)
Lemma hash_ignores_case_and_apply_method_witness :
  let x := mkItem "neptune_enable_audit_log" "ON" "immediate" in
  let y := mkItem "neptune_enable_audit_log" "on" "pending-reboot" in
  hashOf x = hashOf y
  ∧ parameterChanges (group (Some (newSet [x])) (Some (newSet [y])))
    = inl ([], []).
Proof.
  intros x y.
  destruct (hash_ignores_case_and_apply_method
              strings.ToLowerASCII hashcode.String) as [Hhash Hdiff].
  assert (Set_List (newSet [x]) = [x]) as Hx by (by vm_compute).
  assert (Set_List (newSet [y]) = [y]) as Hy by (by vm_compute).
  split.
  - apply Hhash. reflexivity.
  - apply (Hdiff _ (newSet [x]) (newSet [y]));
      [reflexivity|reflexivity|apply NewSet_keyed|apply NewSet_keyed| |].
    + intros x' Hx'. rewrite Hx in Hx'. apply list_elem_of_singleton in Hx'.
      subst x'. exists y. rewrite Hy. split; [apply list_elem_of_here|].
      split; reflexivity.
    + intros y' Hy'. rewrite Hy in Hy'. apply list_elem_of_singleton in Hy'.
      subst y'. exists x. rewrite Hx. split; [apply list_elem_of_here|].
      split; reflexivity.
Defined.


(** C8, counterexample: the group is described, and has vanished by the
    time its parameters are asked for.  The read returns the not-found
    error and keeps the id. *)
Lemma read_returns_not_found_of_pages :
  let gone := AwsError "DBParameterGroupNotFound" "no such group: grp" in
  let d := group None None in
  let s := startWorld
             [(ReplyGroups [mkGroup "grp" "neptune1" "Managed by Terraform"],
               5%N);
              (ReplyError gone, 5%N)] in
  notFound isAWSErr_model gone = true
  ∧ (runRead d s).1.2 = Some gone
  ∧ Id (runRead d s).1.1 = "grp"
  ∧ ev_call <$> events (runRead d s).2
    = [CallDescribeGroups "grp"; CallDescribeParameters "grp" "user"].
Proof. by vm_compute. Qed.

(** C8, witness: the describe call of the group and the delete call
    report that the group is not found; and the call for the parameter
    pages does. *)
Lemma not_found_absorbed_witness :
  let gone := AwsError "DBParameterGroupNotFound" "no such group: grp" in
  let d := group None None in
  let s := startWorld [(ReplyError gone, 5%N)] in
  let g := mkGroup "grp" "neptune1" "Managed by Terraform" in
  let s2 := startWorld [(ReplyGroups [g], 5%N); (ReplyError gone, 5%N)] in
  (∃ s', runRead d s = (SetId "" d, None, s')
         ∧ Id (SetId "" d) = ""
         ∧ events s'
           = events s ++ [mkEvent (CallDescribeGroups "grp") (Some gone)])
  ∧ (∃ s', runDelete d s = (None, s')
           ∧ events s'
             = events s ++ [mkEvent (CallDelete "grp") (Some gone)])
  ∧ (∃ d' s', runRead d s2 = (d', Some gone, s')
              ∧ Id d' = "grp"
              ∧ events s'
                = events s2
                    ++ [mkEvent (CallDescribeGroups "grp") None;
                        mkEvent (CallDescribeParameters "grp" "user")
                                (Some gone)]).
Proof.
  intros gone d s g s2.
  destruct (not_found_absorbed strings.ToLowerASCII hashcode.String
              isAWSErr_model scriptedConn d s) as (Hread & Hdelete & _).
  destruct (not_found_absorbed strings.ToLowerASCII hashcode.String
              isAWSErr_model scriptedConn d s2)
    as (_ & _ & _ & _ & Hpages & _).
  split_and!.
  - apply (Hread gone (mkScripted [] 5)); reflexivity.
  - apply (Hdelete gone (mkScripted [] 5)); reflexivity.
  - apply (Hpages g (mkScripted [(ReplyError gone, 5%N)] 5) []
                  gone (mkScripted [] 5)); reflexivity.
Defined.

(** C9, witness: the same set before and after. *)
Lemma unchanged_parameter_only_reads_witness :
  let ps := Some (newSet [mkItem "a" "1" "immediate"]) in
  let d := group ps ps in
  let s := startWorld
             [(ReplyGroups [mkGroup "grp" "neptune1" "Managed by Terraform"],
               5%N);
              (ReplyPages [[mkParameter "" "a" "1"]], 5%N)] in
  HasChange_parameter d = false
  ∧ runUpdate d s = runRead (Partial false (Partial true d)) s
  ∧ ∃ evs, events (runUpdate d s).2 = events s ++ evs
           ∧ Forall (λ ev, isDescribe ev = true
                           ∧ isReset ev = false ∧ isModify ev = false) evs.
Proof.
  intros ps d s.
  destruct (unchanged_parameter_only_reads strings.ToLowerASCII
              hashcode.String isAWSErr_model scriptedConn d s)
    as [Hsame Hread].
  assert (HasChange_parameter d = false) as Hch by (apply Hsame; reflexivity).
  split; [exact Hch|]. apply Hread. exact Hch.
Defined.

Example unchanged_parameter_calls :
  let ps := Some (newSet [mkItem "a" "1" "immediate"]) in
  ev_call <$> events
    (runUpdate (group ps ps)
       (startWorld
          [(ReplyGroups [mkGroup "grp" "neptune1" "Managed by Terraform"],
            5%N);
           (ReplyPages [[mkParameter "" "a" "1"]], 5%N)])).2
  = [CallDescribeGroups "grp"; CallDescribeParameters "grp" "user"].
Proof. by vm_compute. Qed.

(** C10, witness: a create call that fails; and a create call that
    succeeds with the name grp, followed by a modify call that fails. *)
Lemma create_sets_id_before_update_witness :
  let d := mkData "" "Grp" "neptune1" "Managed by Terraform"
                  (Some ∅) (Some (newSet [mkItem "c" "3" "immediate"]))
                  false None in
  let opts := mkCreateInput "Grp" "neptune1" "Managed by Terraform" in
  let refused := PlainError "create refused" in
  let s0 := startWorld [(ReplyError refused, 5%N)] in
  let s1 := startWorld [(ReplyCreated "grp", 5%N);
                        (ReplyError (PlainError "modify refused"), 5%N)] in
  (∃ s',
      runCreate d s0
      = (d, Some (Errorf "Error creating Neptune Parameter Group: %s" refused),
         s')
      ∧ events s' = events s0 ++ [mkEvent (CallCreate opts) (Some refused)])
  ∧ (∃ d' e s', runCreate d s1 = (d', Some e, s') ∧ Id d' = "grp").
Proof.
  intros d opts refused s0 s1. split.
  - destruct (create_sets_id_before_update strings.ToLowerASCII
                hashcode.String isAWSErr_model scriptedConn d s0)
      as [Hfail _].
    apply (Hfail refused (mkScripted [] 5)). reflexivity.
  - destruct (create_sets_id_before_update strings.ToLowerASCII
                hashcode.String isAWSErr_model scriptedConn d s1)
      as [_ Hok].
    destruct (Hok "grp"
                (mkScripted [(ReplyError (PlainError "modify refused"), 5%N)]
                            5))
      as (d1 & s2 & _ & _ & _ & Hid); [reflexivity|].
    destruct (runCreate d s1) as [[d' [e|]] s'] eqn:E.
    + exists d', e, s'. split; [reflexivity|]. by apply (Hid d' e s').
    + exfalso. vm_compute in E. discriminate E.
Defined.

(** *** The end-to-end cases of the spec *)

(** 25 parameters go out as a batch of 20 and a batch of 5; 40 as two
    batches of 20. *)
Example batches_of_25 :
  length <$> batches (replicate 25 (mkParameter "immediate" "p" "1"))
  = [20; 5]%nat
  ∧ length <$> batches (replicate 40 (mkParameter "immediate" "p" "1"))
    = [20; 20]%nat.
Proof. by vm_compute. Qed.

(** A reset that meets the transient conflict twice and then succeeds:
    three reset calls, then the modify, then the read; no error. *)
Example reset_succeeds_on_third_attempt :
  let d := group (Some (newSet [mkItem "b" "2" "immediate"]))
                 (Some (newSet [mkItem "c" "3" "immediate"])) in
  let pending :=
    AwsError "InvalidDBParameterGroupState"
             "Parameter group grp has pending changes" in
  let out :=
    runUpdate d
      (startWorld
         [(ReplyError pending, 20%N); (ReplyError pending, 20%N);
          (ReplyOk, 20%N); (ReplyOk, 20%N);
          (ReplyGroups [mkGroup "grp" "neptune1" "Managed by Terraform"],
           20%N);
          (ReplyPages [[mkParameter "" "c" "3"]], 20%N)]) in
  out.1.2 = None
  ∧ ev_call <$> events out.2
    = [CallReset "grp" [mkParameter "immediate" "b" "2"];
       CallReset "grp" [mkParameter "immediate" "b" "2"];
       CallReset "grp" [mkParameter "immediate" "b" "2"];
       CallModify "grp" [mkParameter "immediate" "c" "3"];
       CallDescribeGroups "grp";
       CallDescribeParameters "grp" "user"]
  ∧ clock out.2 = 1620%N.
Proof. by vm_compute. Qed.

(** A reset that meets the transient conflict every time is given up at
    the first look at the clock past 30 seconds: here after seven calls,
    and neither a modify nor a read follows. *)
Example reset_given_up_after_budget :
  let d := group (Some (newSet [mkItem "b" "2" "immediate"]))
                 (Some (newSet [mkItem "c" "3" "immediate"])) in
  let pending :=
    AwsError "InvalidDBParameterGroupState"
             "Parameter group grp has pending changes" in
  let out :=
    runUpdate d (startWorld (replicate 50 (ReplyError pending, 20%N))) in
  out.1.2 = Some (Errorf resetFormat pending)
  ∧ ev_call <$> events out.2
    = replicate 7 (CallReset "grp" [mkParameter "immediate" "b" "2"])
  ∧ clock out.2 = 35640%N.
Proof. by vm_compute. Qed.

(** A delete of a group that is already gone succeeds; a delete that
    meets another error returns it after the one call. *)
Example delete_is_idempotent :
  let d := group None None in
  let gone := AwsError "DBParameterGroupNotFound" "not found" in
  let denied := AwsError "AccessDenied" "not allowed" in
  (runDelete d (startWorld [(ReplyError gone, 20%N)])).1 = None
  ∧ (runDelete d (startWorld [(ReplyError denied, 20%N); (ReplyOk, 20%N)])).1
    = Some denied
  ∧ length (events (runDelete d (startWorld [(ReplyError denied, 20%N);
                                             (ReplyOk, 20%N)])).2)
    = 1%nat.
Proof. by vm_compute. Qed.

(** *** Runs for the further properties *)

Local Abbreviation runUpdateParameters :=
  (updateParameters isAWSErr_model scriptedConn).
Local Abbreviation identityOf := (spec_identityOf strings.ToLowerASCII).
Local Abbreviation inputOf := (hashInput strings.ToLowerASCII).

(** X1, witness: the describe call answers with a group of another
    name. *)
Lemma Read_unexpected_groups_witness :
  let d := group None None in
  let groups := [mkGroup "other" "neptune1" "Managed by Terraform"] in
  let s := startWorld [(ReplyGroups groups, 5%N)] in
  ∃ s',
    runRead d s
    = (d, Some (ErrorfGroups "Unable to find Parameter Group: %#v" groups), s')
    ∧ events s' = events s ++ [mkEvent (CallDescribeGroups "grp") None].
Proof.
  intros d groups s.
  apply (Read_unexpected_groups strings.ToLowerASCII hashcode.String
           isAWSErr_model scriptedConn d s groups (mkScripted [] 5)).
  - reflexivity.
  - intros g [= <-]. simpl. discriminate.
Defined.

(** X2, witness: the group and two pages of one parameter each. *)
Lemma Read_success_witness :
  let d := group None None in
  let g := mkGroup "grp" "neptune1" "Managed by Terraform" in
  let pages := [[mkParameter "" "a" "1"]; [mkParameter "" "c" "3"]] in
  let s := startWorld [(ReplyGroups [g], 5%N); (ReplyPages pages, 5%N)] in
  ∃ d' s',
    runRead d s = (d', None, s')
    ∧ parameter_new d'
      = Some (newSet [mkItem "a" "1" ""; mkItem "c" "3" ""])
    ∧ ev_call <$> events s'
      = [CallDescribeGroups "grp"; CallDescribeParameters "grp" "user"].
Proof.
  intros d g pages s.
  destruct (Read_success strings.ToLowerASCII hashcode.String
              isAWSErr_model scriptedConn d s g
              (mkScripted [(ReplyPages pages, 5%N)] 5) pages
              (mkScripted [] 5))
    as (d' & s' & Hrun & _ & _ & _ & _ & Hnew & _ & _ & Hev);
    [reflexivity|reflexivity|reflexivity|].
  exists d', s'. split; [exact Hrun|]. split; [exact Hnew|].
  rewrite Hev. reflexivity.
Defined.

(** X3, witness: the group is there but has vanished by the time its
    parameters are asked for. *)
Lemma Read_parameters_error_witness :
  let d := group None None in
  let g := mkGroup "grp" "neptune2" "other description" in
  let gone := AwsError "DBParameterGroupNotFound" "no such group: grp" in
  let s := startWorld [(ReplyGroups [g], 5%N); (ReplyError gone, 5%N)] in
  ∃ d' s',
    runRead d s = (d', Some gone, s')
    ∧ Id d' = "grp"
    ∧ d_family d' = "neptune2"
    ∧ parameter_new d' = None.
Proof.
  intros d g gone s.
  destruct (Read_parameters_error strings.ToLowerASCII hashcode.String
              isAWSErr_model scriptedConn d s g
              (mkScripted [(ReplyError gone, 5%N)] 5) [] gone
              (mkScripted [] 5))
    as (d' & s' & Hrun & Hid & Hnew & _ & _ & Hfam & _);
    [reflexivity|reflexivity|reflexivity|].
  exists d', s'. split_and!; [exact Hrun|exact Hid|exact Hfam|exact Hnew].
Defined.

(** X7, witness: one parameter to remove, one to add, both calls
    succeed. *)
Lemma updateParameters_applied_witness :
  let d := group (Some (newSet [mkItem "b" "2" "immediate"]))
                 (Some (newSet [mkItem "c" "3" "immediate"])) in
  let s := startWorld [(ReplyOk, 5%N); (ReplyOk, 5%N)] in
  let out := runUpdateParameters d s in
  ∃ R M,
    events out.2 = events s ++ R ++ M
    ∧ Forall (λ ev, isReset ev = true) R
    ∧ Forall (λ ev, isModify ev = true) M
    ∧ applied R `prefix_of` [mkParameter "immediate" "b" "2"]
    ∧ applied M `prefix_of` [mkParameter "immediate" "c" "3"]
    ∧ (M ≠ [] → applied R = [mkParameter "immediate" "b" "2"])
    ∧ (out.1.2 = None →
       applied R = [mkParameter "immediate" "b" "2"]
       ∧ applied M = [mkParameter "immediate" "c" "3"]).
Proof.
  intros d s out.
  apply (updateParameters_applied isAWSErr_model scriptedConn d s
           out.1.1 out.1.2 out.2).
  - subst out. by destruct (runUpdateParameters d s) as [[? ?] ?].
  - by vm_compute.
  - by vm_compute.
Defined.

(** X8, witness: a value in another case with another apply method. *)
Lemma Update_same_keys_witness :
  let os := newSet [mkItem "neptune_enable_audit_log" "ON" "immediate"] in
  let ns := newSet [mkItem "neptune_enable_audit_log" "on" "pending-reboot"] in
  let d := group (Some os) (Some ns) in
  let s := startWorld
             [(ReplyGroups [mkGroup "grp" "neptune1" "Managed by Terraform"],
               5%N);
              (ReplyPages [[mkParameter "" "neptune_enable_audit_log" "on"]],
               5%N)] in
  HasChange_parameter d = true
  ∧ parameterChanges d = inl ([], [])
  ∧ let '(d', _, s') := runUpdate d s in
    partial d' = false
    ∧ ∃ evs, events s' = events s ++ evs
             ∧ Forall (λ ev, isDescribe ev = true) evs.
Proof.
  intros os ns d s. split; [by vm_compute|].
  apply (Update_same_keys strings.ToLowerASCII hashcode.String
           isAWSErr_model scriptedConn d s os ns);
    [reflexivity|reflexivity|by vm_compute].
Defined.

(** X9, witness: a fresh group (no old value) and a group that is
    cleared (empty new value). *)
Lemma parameterChanges_empty_side_witness :
  let ps := newSet [mkItem "c" "3" "immediate"] in
  parameterChanges (group None (Some ps))
  = inl ([], [mkParameter "immediate" "c" "3"])
  ∧ parameterChanges (group (Some ps) (Some ∅))
    = inl ([mkParameter "immediate" "c" "3"], []).
Proof.
  intros ps. split.
  - destruct (parameterChanges_empty_side isAWSErr_model scriptedConn
                (group None (Some ps)) (startWorld [])) as [Hold _].
    destruct Hold as [Hpc _]; [by left|]. rewrite Hpc. by vm_compute.
  - destruct (parameterChanges_empty_side isAWSErr_model scriptedConn
                (group (Some ps) (Some ∅)) (startWorld [])) as [_ Hnew].
    destruct Hnew as [Hpc _]; [by right|]. rewrite Hpc. by vm_compute.
Defined.

(** X10, witness: a parameter whose value changes is in both lists, as
    two different elements. *)
Lemma parameterChanges_disjoint_witness :
  let os := newSet [mkItem "a" "1" "immediate"; mkItem "b" "2" "immediate"] in
  let ns := newSet [mkItem "a" "1" "immediate"; mkItem "b" "3" "immediate"] in
  let toRemove := [mkParameter "immediate" "b" "2"] in
  let toAdd := [mkParameter "immediate" "b" "3"] in
  parameterChanges (group (Some os) (Some ns)) = inl (toRemove, toAdd)
  ∧ NoDup toRemove ∧ NoDup toAdd ∧ (∀ p, p ∈ toRemove → p ∉ toAdd).
Proof.
  intros os ns toRemove toAdd.
  assert (parameterChanges (group (Some os) (Some ns))
          = inl (toRemove, toAdd)) as Hpc by (by vm_compute).
  split; [exact Hpc|].
  destruct (parameterChanges_disjoint strings.ToLowerASCII hashcode.String
              (group (Some os) (Some ns)) os ns toRemove toAdd)
    as (H1 & H2 & H3 & _);
    [reflexivity|reflexivity|apply NewSet_keyed|apply NewSet_keyed|exact Hpc|].
  split_and!; assumption.
Defined.

(** X11, witness: names without a dash, values that differ in case. *)
Lemma hashInput_injective_witness :
  let x := mkItem "neptune_query_timeout" "ABC" "immediate" in
  let y := mkItem "neptune_query_timeout" "abc" "pending-reboot" in
  inputOf x = inputOf y ∧ identityOf x = identityOf y.
Proof.
  intros x y.
  destruct (hashInput_injective strings.ToLowerASCII x y) as [Hto Hfrom].
  assert (inputOf x = inputOf y) as Hin by (apply Hto; reflexivity).
  split; [exact Hin|]. apply Hfrom; [reflexivity|reflexivity|exact Hin].
Defined.

(** X12, witness: three parameters with names free of dashes, whose keys
    do not collide. *)
Lemma parameterChanges_by_identity_witness :
  let a := mkItem "a" "1" "immediate" in
  let b := mkItem "b" "2" "immediate" in
  let c := mkItem "c" "3" "immediate" in
  let os := newSet [a; b] in
  let ns := newSet [a; c] in
  parameterChanges (group (Some os) (Some ns))
  = inl ((expandNeptuneParameters
            (filter (λ x, identityOf x ∉ identityOf <$> Set_List ns)
                    (Set_List os))).1,
         (expandNeptuneParameters
            (filter (λ x, identityOf x ∉ identityOf <$> Set_List os)
                    (Set_List ns))).1).
Proof.
  intros a b c os ns.
  apply (parameterChanges_by_identity strings.ToLowerASCII hashcode.String
           (group (Some os) (Some ns)) os ns);
    [reflexivity|reflexivity|apply NewSet_keyed|apply NewSet_keyed|].
  assert (∃ l, Set_List os ++ Set_List ns = l
               ∧ Forall (λ x, x = a ∨ x = b ∨ x = c) l) as (l & -> & Hall).
  { eexists. split; [by vm_compute|].
    repeat (constructor; [auto|]). constructor. }
  rewrite Forall_forall in Hall.
  intros x y Hx Hy.
  destruct (Hall x Hx) as [Ex|[Ex|Ex]], (Hall y Hy) as [Ey|[Ey|Ey]];
    rewrite Ex, Ey;
    first [ reflexivity
          | intros Hk; vm_compute in Hk; discriminate Hk ].
Defined.

(** *** Runs for the retry policy *)

(** C5, witness: one parameter to remove; the reset meets the transient
    conflict twice, 20 ms each time, and then succeeds. *)
Lemma reset_retried_modify_not_witness :
  let pb := mkParameter "immediate" "b" "2" in
  let d := group (Some (newSet [mkItem "b" "2" "immediate"]))
                 (Some (newSet [mkItem "c" "3" "immediate"])) in
  let pending :=
    AwsError "InvalidDBParameterGroupState"
             "Parameter group grp has pending changes" in
  let s :=
    startWorld
      [(ReplyError pending, 20%N); (ReplyError pending, 20%N);
       (ReplyOk, 20%N); (ReplyOk, 20%N);
       (ReplyGroups [mkGroup "grp" "neptune1" "Managed by Terraform"], 20%N);
       (ReplyPages [[mkParameter "" "c" "3"]], 20%N)] in
  (HasChange_parameter d = true
   ∧ parameterChanges d = inl ([pb], [mkParameter "immediate" "c" "3"]))
  ∧ (∃ r1 s1,
        RemovalRun isAWSErr_model scriptedConn "grp" [[pb]] s r1 s1
        ∧ match r1 with
          | Some e => runUpdate d s = (Partial true d, Some e, s1)
          | None =>
              ∃ evs, events (runUpdate d s).2 = events s1 ++ evs
                     ∧ Forall (λ ev, isReset ev = false) evs
          end)
  ∧ (∃ r s' evs,
        ResetBatchRun isAWSErr_model scriptedConn "grp" [pb] s r s'
        ∧ events s'
          = events s
              ++ mkEvent (CallReset "grp" [pb]) (Some pending)
              :: mkEvent (CallReset "grp" [pb]) (Some pending)
              :: evs)
  ∧ (∃ evs,
        events (runUpdate d s).2
        = events s
            ++ mkEvent (CallReset "grp" [pb]) (Some pending)
            :: mkEvent (CallReset "grp" [pb]) (Some pending)
            :: evs).
Proof.
  intros pb d pending s.
  assert (HasChange_parameter d = true) as Hch by (by vm_compute).
  assert (parameterChanges d = inl ([pb], [mkParameter "immediate" "c" "3"]))
    as Hpc by (by vm_compute).
  destruct (reset_retried_modify_not strings.ToLowerASCII hashcode.String
              isAWSErr_model scriptedConn d s)
    as (_ & _ & Hremoval & Hsecond & Hupdate).
  destruct (Hremoval _ _ Hch Hpc) as (r1 & s1 & Hrun & Hrest).
  change (batches [pb]) with [[pb]] in Hrun.
  split; [by split|].
  split; [exists r1, s1; split; [exact Hrun|exact Hrest]|].
  destruct (RemovalRun_head isAWSErr_model scriptedConn _ _ _ _ _ _ Hrun)
    as (r & s' & Hbatch).
  destruct (Hsecond [pb] r s' pending
              (mkScripted
                 [(ReplyError pending, 20%N); (ReplyOk, 20%N);
                  (ReplyOk, 20%N);
                  (ReplyGroups
                     [mkGroup "grp" "neptune1" "Managed by Terraform"], 20%N);
                  (ReplyPages [[mkParameter "" "c" "3"]], 20%N)] 20)
              Hbatch) as (evs & Hev);
    [reflexivity|reflexivity|by vm_compute|].
  split; [exists r, s', evs; split; [exact Hbatch|exact Hev]|].
  apply (Hupdate [pb] [mkParameter "immediate" "c" "3"] [pb] [] pending
           (mkScripted
              [(ReplyError pending, 20%N); (ReplyOk, 20%N);
               (ReplyOk, 20%N);
               (ReplyGroups
                  [mkGroup "grp" "neptune1" "Managed by Terraform"], 20%N);
               (ReplyPages [[mkParameter "" "c" "3"]], 20%N)] 20));
    [exact Hch|exact Hpc|reflexivity|reflexivity|reflexivity|by vm_compute].
Defined.

(** C7, witness: the first delete call meets the invalid-state error
    after 20 ms, the second finds the group gone. *)
Lemma delete_policy_witness :
  let d := group None None in
  let busy := AwsError "InvalidDBParameterGroupState" "in use" in
  let gone := AwsError "DBParameterGroupNotFound" "no such group: grp" in
  let s := startWorld [(ReplyError busy, 20%N); (ReplyError gone, 20%N)] in
  (notFound isAWSErr_model busy = false
   ∧ invalidState isAWSErr_model busy = true)
  ∧ DeleteRun isAWSErr_model scriptedConn d s
              (runDelete d s).1 (runDelete d s).2
  ∧ ∃ evs,
      events (runDelete d s).2
      = events s
          ++ mkEvent (CallDelete "grp") (Some busy)
          :: mkEvent (CallDelete "grp") (Some gone)
          :: evs.
Proof.
  intros d busy gone s.
  pose proof (delete_policy isAWSErr_model scriptedConn d s) as H.
  destruct (runDelete d s) as [r s'] eqn:E.
  destruct H as (_ & Hrun & Hsecond).
  split; [by split|]. split; [exact Hrun|].
  apply (Hsecond busy (mkScripted [(ReplyError gone, 20%N)] 20));
    [reflexivity|reflexivity|reflexivity|by vm_compute].
Defined.

(** A delete that meets the invalid-state error every time gives up at
    the first look at the clock past 3 minutes: here after 22 calls. *)
Example delete_given_up_after_budget :
  let d := group None None in
  let busy := AwsError "InvalidDBParameterGroupState" "in use" in
  let out := runDelete d (startWorld (replicate 50 (ReplyError busy, 20%N))) in
  out.1 = Some busy
  ∧ length (events out.2) = 22%nat
  ∧ (3 * time_Minute ≤ clock out.2)%N.
Proof. by vm_compute. Qed.
